(** * evida_sismos_manager_go: classifier, event manager and WebSocket hub

    A shallow embedding of [internal/models], [internal/geometry],
    [internal/manager] and the WebSocket hub, followed by the properties
    proved about them.

    Modelling conventions
    - Go [float64] is Rocq's primitive [float] (IEEE 754 binary64), every
      operation rounded on its own (no fused multiply-add).
    - Go [string] is [string]; [time.Time] is an integer count of
      nanoseconds ([Z]); [time.Duration] is an [int64] count of nanoseconds,
      its negation wrapping as in two's complement.
    - [map[string]Earthquake] is [gmap string Earthquake]; ranging over it
      visits [map_to_list] (Go leaves the order unspecified, and no theorem
      below depends on it).
    - A buffered channel is the list of its pending elements together with
      its capacity; a [select] with a [default] branch is a send that
      reports whether it went through.
    - A run-time panic (send on a closed channel, closing a closed channel)
      is the [None] of an [option].
    - What a network connection or the JSON encoder answers is an input of
      the model: the writer of a session takes the results of its calls on
      the connection, the REST handler the encoder as a function that can
      fail. *)

From Stdlib Require Import ZArith Floats Bool Lia.
From Stdlib Require Import Sorting.Sorted Sorting.Permutation.
From stdpp Require Import gmap strings list fin_maps.

Local Open Scope string_scope.

(* ===================================================================== *)
(** * internal/models/earthquake.go *)
(* ===================================================================== *)

Module Models.

Record Earthquake := {
  ID : string;
  Magnitude : float;
  Location : string;
  Latitude : float;
  Longitude : float;
  Depth : float;
  Time : Z;
  Source : string;
  Oceano : string;
  OceanoRegion : string;
  URL : string
}.

Record Point := { Lat : float; Lon : float }.

Definition Polygon := list Point.

(** The two assignments [eq.Oceano = o; eq.OceanoRegion = r]. *)
Definition set_labels (eq : Earthquake) (o r : string) : Earthquake :=
  {| ID := ID eq; Magnitude := Magnitude eq; Location := Location eq;
     Latitude := Latitude eq; Longitude := Longitude eq; Depth := Depth eq;
     Time := Time eq; Source := Source eq;
     Oceano := o; OceanoRegion := r; URL := URL eq |}.

End Models.
Import Models.

(* ===================================================================== *)
(** * internal/geometry/polygon.go, regions_data.go *)
(* ===================================================================== *)

Module Geometry.

Local Open Scope float_scope.

(** Go's [a > b] on float64. *)
Definition fgt (a b : float) : bool := b <? a.

(** [rayIntersectsSegment]: the early return on the straddle test comes
    first, the slope is computed only past it. *)
Definition rayIntersectsSegment (point p1 p2 : Point) : bool :=
  if Bool.eqb (fgt (Lat p1) (Lat point)) (fgt (Lat p2) (Lat point)) then false
  else
    let slope := (Lon p2 - Lon p1) / (Lat p2 - Lat p1) in
    let intersectionLon := Lon p1 + (Lat point - Lat p1) * slope in
    Lon point <? intersectionLon.

Definition zeroPoint : Point := {| Lat := 0; Lon := 0 |}.

(** The body of [for i := 0; i < n; i++]: [todo] iterations remain, the
    index is [i], the counter is [intersections].  Both subscripts are
    below [n], so the default of [nth] is never read. *)
Fixpoint PointInPolygon_loop (point : Point) (polygon : Polygon) (n : nat)
    (todo i : nat) (intersections : Z) : Z :=
  match todo with
  | O => intersections
  | S todo' =>
      let p1 := nth i polygon zeroPoint in
      let p2 := nth ((i + 1) mod n) polygon zeroPoint in
      PointInPolygon_loop point polygon n todo' (i + 1)
        (if rayIntersectsSegment point p1 p2
         then (intersections + 1)%Z else intersections)
  end.

Definition PointInPolygon (point : Point) (polygon : Polygon) : bool :=
  if (length polygon <? 3)%nat then false
  else
    let n := length polygon in
    let intersections := PointInPolygon_loop point polygon n n 0 0%Z in
    (intersections mod 2 =? 1)%Z.

Record RegionData := {
  LatlonCPWorld : Polygon;
  LatlonPacificoLocal : Polygon;
  LatlonPacificoRegional : Polygon;
  LatlonPacificoLocal20Km : Polygon;
  LatlonCCWorld : list Polygon;
  LatlonCaribeRegional : list Polygon;
  LatlonCaribeLocal : Polygon;
  LatlonCaribeLocalInsular : Polygon
}.

Fixpoint evaluarPuntosMultiples (point : Point) (polygons : list Polygon) : bool :=
  match polygons with
  | [] => false
  | polygon :: rest =>
      if PointInPolygon point polygon then true
      else evaluarPuntosMultiples point rest
  end.

Definition determinarRegionPacifico (rd : RegionData) (point : Point) : string :=
  if PointInPolygon point (LatlonPacificoLocal rd) then "local"%string
  else if PointInPolygon point (LatlonPacificoRegional rd) then "regional"%string
  else "lejano"%string.

(** [CategorizeEarthquake(eq *Earthquake)]: the package variable
    [regionData] is the first argument, [None] being the nil pointer of a
    configuration that was never loaded; the updated record is returned. *)
Definition CategorizeEarthquake (regionData : option RegionData)
    (eq : Earthquake) : Earthquake :=
  match regionData with
  | None => eq
  | Some rd =>
      let point := {| Lat := Latitude eq; Lon := Longitude eq |} in
      if PointInPolygon point (LatlonCPWorld rd) then
        set_labels eq "Pacifico" (determinarRegionPacifico rd point)
      else if PointInPolygon point (LatlonPacificoLocal rd) then
        set_labels eq "Pacifico" "local"
      else if (0 <? length (LatlonPacificoRegional rd))%nat
              && PointInPolygon point (LatlonPacificoRegional rd) then
        set_labels eq "Pacifico" "regional"
      else if (0 <? length (LatlonPacificoLocal20Km rd))%nat
              && PointInPolygon point (LatlonPacificoLocal20Km rd) then
        set_labels eq "Pacifico" "local"
      else if evaluarPuntosMultiples point (LatlonCCWorld rd) then
        set_labels eq "Caribe" "lejano"
      else if evaluarPuntosMultiples point (LatlonCaribeRegional rd) then
        set_labels eq "Caribe" "regional"
      else if PointInPolygon point (LatlonCaribeLocal rd)
              || PointInPolygon point (LatlonCaribeLocalInsular rd) then
        set_labels eq "Caribe" "local"
      else
        set_labels eq "Uncategorized" "Uncategorized"
  end.

End Geometry.
Import Geometry.

(* ===================================================================== *)
(** * internal/manager/earthquake_manager.go *)
(* ===================================================================== *)

Module Manager.

(** ** Channels and sorting, as the Go runtime and library provide them *)

(** [select { case ch <- x: default: }] on a channel of capacity [cap]
    holding [ch]: the element is appended when there is room, and dropped
    otherwise; the sender never waits. *)
Definition try_send {A} (cap : nat) (ch : list A) (x : A) : list A :=
  if (length ch <? cap)%nat then ch ++ [x] else ch.

(** [sort.Slice(s, less)].  Go's sort is not stable; this model is one of
    the orders it may produce, and the theorems on it use only that the
    result is a permutation ordered by [less]. *)
Fixpoint sort_insert {A} (less : A → A → bool) (x : A) (l : list A) : list A :=
  match l with
  | [] => [x]
  | y :: l' => if less y x then y :: sort_insert less x l' else x :: l
  end.

Fixpoint sort_Slice {A} (less : A → A → bool) (l : list A) : list A :=
  match l with
  | [] => []
  | x :: l' => sort_insert less x (sort_Slice less l')
  end.

(** In the output of [sort.Slice], [a] may stand before [b]. *)
Definition mayPrecede {A} (less : A → A → bool) (a b : A) : Prop :=
  less b a = false.

(** [t.After(u)] and [t.Before(u)]. *)
Definition After (t u : Z) : bool := (u <? t)%Z.
Definition Before (t u : Z) : bool := (t <? u)%Z.

(** The comparison handed to [sort.Slice] by every query. *)
Definition byTimeDesc (a b : Earthquake) : bool := After (Time a) (Time b).

(** ** The manager *)

Record EarthquakeManager := {
  earthquakes : gmap string Earthquake;
  maxAge : Z;
  newEarthquakeChan : list Earthquake
}.

(** [make(chan models.Earthquake, 100)] *)
Definition newEarthquakeChanCap : nat := 100.

Definition NewEarthquakeManager (maxAge : Z) : EarthquakeManager :=
  {| earthquakes := ∅; maxAge := maxAge; newEarthquakeChan := [] |}.

(** The test of [AddEarthquake] lines 46-47. *)
Definition notCategorized (eq : Earthquake) : bool :=
  (Oceano eq =? "")%string || (Oceano eq =? "Uncategorized")%string ||
  (OceanoRegion eq =? "")%string || (OceanoRegion eq =? "Uncategorized")%string.

(** The test of [GetAll] and [GetCount]. *)
Definition isCategorized (eq : Earthquake) : bool :=
  negb (Oceano eq =? "")%string && negb (Oceano eq =? "Uncategorized")%string &&
  negb (OceanoRegion eq =? "")%string && negb (OceanoRegion eq =? "Uncategorized")%string.

Definition AddEarthquake (regionData : option RegionData) (eq : Earthquake)
    (em : EarthquakeManager) : EarthquakeManager * bool :=
  match earthquakes em !! ID eq with
  | Some _ => (em, false)
  | None =>
      let eq := CategorizeEarthquake regionData eq in
      if notCategorized eq then (em, false)
      else
        ({| earthquakes := <[ID eq := eq]> (earthquakes em);
            maxAge := maxAge em;
            newEarthquakeChan :=
              try_send newEarthquakeChanCap (newEarthquakeChan em) eq |},
         true)
  end.

(** The loop of [AddEarthquakes]; [newOnes] collects the loop variable,
    that is the record as it was passed in. *)
Fixpoint AddEarthquakes_loop (regionData : option RegionData)
    (earthquakes : list Earthquake) (em : EarthquakeManager)
    (newOnes : list Earthquake) : EarthquakeManager * list Earthquake :=
  match earthquakes with
  | [] => (em, newOnes)
  | eq :: rest =>
      let '(em', added) := AddEarthquake regionData eq em in
      AddEarthquakes_loop regionData rest em'
        (if added then newOnes ++ [eq] else newOnes)
  end.

Definition AddEarthquakes (regionData : option RegionData)
    (earthquakes : list Earthquake) (em : EarthquakeManager)
    : EarthquakeManager * list Earthquake :=
  AddEarthquakes_loop regionData earthquakes em [].

(** [for _, eq := range em.earthquakes] *)
Definition range_values (em : EarthquakeManager) : list Earthquake :=
  (map_to_list (earthquakes em)).*2.

Definition GetAll (em : EarthquakeManager) : list Earthquake :=
  sort_Slice byTimeDesc (List.filter isCategorized (range_values em)).

Definition GetByOceano (oceano : string) (em : EarthquakeManager) : list Earthquake :=
  sort_Slice byTimeDesc
    (List.filter (λ eq, (Oceano eq =? oceano)%string) (range_values em)).

Definition GetByRegion (region : string) (em : EarthquakeManager) : list Earthquake :=
  sort_Slice byTimeDesc
    (List.filter (λ eq, (OceanoRegion eq =? region)%string) (range_values em)).

Definition GetByTimeRange (start end_ : Z) (em : EarthquakeManager) : list Earthquake :=
  sort_Slice byTimeDesc
    (List.filter (λ eq, After (Time eq) start && Before (Time eq) end_)
       (range_values em)).

Definition GetCount (em : EarthquakeManager) : Z :=
  fold_left (λ count eq, if isCategorized eq then (count + 1)%Z else count)
    (range_values em) 0%Z.

(** One iteration of the loop of [CleanOld] on the entry [(id, eq)]. *)
Definition CleanOld_body (cutoff : Z) (acc : gmap string Earthquake * Z)
    (entry : string * Earthquake) : gmap string Earthquake * Z :=
  if Before (Time entry.2) cutoff
  then (delete entry.1 acc.1, (acc.2 + 1)%Z)
  else acc.

(** An integer brought back into the range of [int64], as two's
    complement arithmetic does. *)
Definition wrap64 (z : Z) : Z := ((z + 2 ^ 63) mod 2 ^ 64 - 2 ^ 63)%Z.

(** [-d] on a [time.Duration], an [int64]: the least duration is its own
    negation. *)
Definition Duration_neg (d : Z) : Z := wrap64 (- d).

(** [time.Now().Add(-em.maxAge)], with [time.Now()] as [now]; [Add] itself
    is exact on instants. *)
Definition CleanOld_cutoff (now : Z) (em : EarthquakeManager) : Z :=
  (now + Duration_neg (maxAge em))%Z.

(** [CleanOld], with [time.Now()] as the argument [now].  Deleting the
    entry under the cursor is allowed in Go and every entry present at the
    start of the loop is visited once. *)
Definition CleanOld (now : Z) (em : EarthquakeManager) : EarthquakeManager * Z :=
  let cutoff := CleanOld_cutoff now em in
  let '(m, removed) :=
    fold_left (CleanOld_body cutoff) (map_to_list (earthquakes em))
      (earthquakes em, 0%Z) in
  ({| earthquakes := m; maxAge := maxAge em;
      newEarthquakeChan := newEarthquakeChan em |}, removed).

(** The four read operations as one family. *)
Inductive query :=
| QueryAll
| QueryByOceano (oceano : string)
| QueryByRegion (region : string)
| QueryByTimeRange (start end_ : Z).

Definition runQuery (q : query) (em : EarthquakeManager) : list Earthquake :=
  match q with
  | QueryAll => GetAll em
  | QueryByOceano oceano => GetByOceano oceano em
  | QueryByRegion region => GetByRegion region em
  | QueryByTimeRange start end_ => GetByTimeRange start end_ em
  end.

(** A record carries both labels: neither is empty nor ["Uncategorized"]. *)
Definition labeled (eq : Earthquake) : Prop :=
  Oceano eq ≠ "" ∧ Oceano eq ≠ "Uncategorized" ∧
  OceanoRegion eq ≠ "" ∧ OceanoRegion eq ≠ "Uncategorized".

(** The event classifies as unclassified: the classifier writes the
    labels of lines 117-118. *)
Definition unclassified (rd : option RegionData) (E : Earthquake) : Prop :=
  Oceano (CategorizeEarthquake rd E) = "Uncategorized"
  ∧ OceanoRegion (CategorizeEarthquake rd E) = "Uncategorized".

(** Most recent first. *)
Definition timeDescending (l : list Earthquake) : Prop :=
  Sorted (λ a b, (Time b ≤ Time a)%Z) l.

(** Every entry sits under its own identifier, carries both labels, and
    its labels are those the classifier gives its coordinates. *)
Definition store_inv (rd : option RegionData) (em : EarthquakeManager) : Prop :=
  ∀ id eq, earthquakes em !! id = Some eq →
    ID eq = id ∧ labeled eq ∧ CategorizeEarthquake rd eq = eq.

(** The consumer of [GetNewEarthquakeChannel()] taking one element. *)
Definition receive (em : EarthquakeManager) : EarthquakeManager :=
  {| earthquakes := earthquakes em; maxAge := maxAge em;
     newEarthquakeChan := tail (newEarthquakeChan em) |}.

(** The states of a manager under a fixed region configuration: it starts
    empty and is changed by [AddEarthquake], [AddEarthquakes], [CleanOld]
    and the reader of the channel. *)
Inductive reachable (regionData : option RegionData) : EarthquakeManager → Prop :=
| reach_new maxAge : reachable regionData (NewEarthquakeManager maxAge)
| reach_add eq em :
    reachable regionData em →
    reachable regionData (AddEarthquake regionData eq em).1
| reach_add_many eqs em :
    reachable regionData em →
    reachable regionData (AddEarthquakes regionData eqs em).1
| reach_clean now em :
    reachable regionData em →
    reachable regionData (CleanOld now em).1
| reach_receive em :
    reachable regionData em →
    reachable regionData (receive em).

(** ** [GetStats] *)

(** [m[k]++] on a [map[string]int]: a missing key counts from zero. *)
Definition increment (m : gmap string Z) (k : string) : gmap string Z :=
  <[k := (default 0 (m !! k) + 1)%Z]> m.

(** One counting loop of [GetStats]: [for _, eq := range em.earthquakes
    { by[key(eq)]++ }]. *)
Definition countBy (key : Earthquake → string) (l : list Earthquake)
    : gmap string Z :=
  fold_left (λ m eq, increment m (key eq)) l ∅.

(** The [map[string]interface{}] returned by [GetStats], one field per key
    (["total"], ["by_oceano"], ["by_region"], ["by_source"]). *)
Record Stats := {
  total : Z;
  by_oceano : gmap string Z;
  by_region : gmap string Z;
  by_source : gmap string Z
}.

Definition GetStats (em : EarthquakeManager) : Stats :=
  {| total := Z.of_nat (size (earthquakes em));
     by_oceano := countBy Oceano (range_values em);
     by_region := countBy OceanoRegion (range_values em);
     by_source := countBy Source (range_values em) |}.

(** The sum of the counts of one grouping. *)
Definition sumCounts (m : gmap string Z) : Z :=
  map_fold (λ _ v acc, (v + acc)%Z) 0%Z m.

End Manager.
Import Manager.

(* ===================================================================== *)
(** * The WebSocket hub (package websocket) *)
(* ===================================================================== *)

Module Websocket.

Abbreviation bytes := (list Byte.byte).

(** [Message]; the field [Type] of the source is [MsgType] here, [Type]
    being reserved. *)
Record Message := { MsgType : string; Data : Earthquake }.

(** A [chan []byte]: the pending payloads, oldest first, and whether
    [close] was called on it. *)
Record chan := { buf : list bytes; closed : bool }.

(** [make(chan []byte, 256)] in [ServeWs] *)
Definition sendCap : nat := 256.

Definition make_chan : chan := {| buf := []; closed := false |}.

(** [select { case ch <- m: ... default: ... }]: [Some (ch', true)] when the
    payload was queued, [Some (ch, false)] when the [default] branch ran,
    and [None] for the panic of a send on a closed channel. *)
Definition chan_try_send (ch : chan) (m : bytes) : option (chan * bool) :=
  if closed ch then None
  else if (length (buf ch) <? sendCap)%nat
       then Some ({| buf := buf ch ++ [m]; closed := false |}, true)
       else Some (ch, false).

(** [close(ch)]; closing twice panics. *)
Definition chan_close (ch : chan) : option chan :=
  if closed ch then None else Some {| buf := buf ch; closed := true |}.

(** A [*Client] is its address; [send] gives the [send] channel of every
    client allocated so far and [clients] is the key set of [h.clients]. *)
Record Hub := {
  clients : gset nat;
  send : gmap nat chan
}.

Definition NewHub : Hub := {| clients := ∅; send := ∅ |}.

(** [case client := <-h.register] *)
Definition Run_register (client : nat) (h : Hub) : option Hub :=
  Some {| clients := {[client]} ∪ clients h; send := send h |}.

(** [case client := <-h.unregister] *)
Definition Run_unregister (client : nat) (h : Hub) : option Hub :=
  if decide (client ∈ clients h) then
    ch ← send h !! client;
    ch' ← chan_close ch;
    Some {| clients := clients h ∖ {[client]}; send := <[client := ch']> (send h) |}
  else Some h.

(** The body of [for client := range h.clients] in the broadcast case. *)
Definition Run_broadcast_client (message : bytes) (h : Hub) (client : nat)
    : option Hub :=
  ch ← send h !! client;
  '(ch1, sent) ← chan_try_send ch message;
  if (sent : bool) then
    Some {| clients := clients h; send := <[client := ch1]> (send h) |}
  else
    ch' ← chan_close ch;
    Some {| clients := clients h ∖ {[client]}; send := <[client := ch']> (send h) |}.

Fixpoint Run_broadcast_loop (message : bytes) (cs : list nat) (h : Hub)
    : option Hub :=
  match cs with
  | [] => Some h
  | client :: rest =>
      h' ← Run_broadcast_client message h client;
      Run_broadcast_loop message rest h'
  end.

(** [case message := <-h.broadcast]: the clients present when the loop
    starts are visited once each; the loop deletes only the entry it is at. *)
Definition Run_broadcast (message : bytes) (h : Hub) : option Hub :=
  Run_broadcast_loop message (elements (clients h)) h.

(** What [BroadcastEarthquake] puts on [h.broadcast]: the envelope,
    marshalled once, or nothing when [json.Marshal] fails (the error is
    logged and the function returns).  [json.Marshal] is the argument
    [json_Marshal]. *)
Definition BroadcastEarthquake (json_Marshal : Message → option bytes)
    (eq : Earthquake) : option bytes :=
  json_Marshal {| MsgType := "new_earthquake"; Data := eq |}.

(** [BroadcastEarthquake] followed by the hub loop taking the payload from
    [h.broadcast]. *)
Definition broadcast (json_Marshal : Message → option bytes)
    (eq : Earthquake) (h : Hub) : option Hub :=
  match BroadcastEarthquake json_Marshal eq with
  | None => Some h
  | Some data => Run_broadcast data h
  end.

(** [ServeWs]: a new client with its own empty queue, then registration. *)
Definition ServeWs (h : Hub) : option Hub :=
  let client := fresh (dom (send h)) in
  Run_register client {| clients := clients h; send := <[client := make_chan]> (send h) |}.

(** [writePump] taking one payload from its queue. *)
Definition writePump_receive (client : nat) (h : Hub) : Hub :=
  {| clients := clients h;
     send := alter (λ ch, {| buf := tail (buf ch); closed := closed ch |}) client (send h) |}.

(** The hub states of a run: sessions are opened by [ServeWs], closed
    through [unregister] by their own pumps, and the loop serves
    broadcasts. *)
Inductive reachable : Hub → Prop :=
| reach_new : reachable NewHub
| reach_serve h h' : reachable h → ServeWs h = Some h' → reachable h'
| reach_unregister c h h' :
    reachable h → c ∈ dom (send h) → Run_unregister c h = Some h' → reachable h'
| reach_broadcast m h h' : reachable h → Run_broadcast m h = Some h' → reachable h'
| reach_receive c h : reachable h → reachable (writePump_receive c h).

(** Every session of the active set has an allocated, open queue. *)
Definition active_open (h : Hub) : Prop :=
  ∀ c, c ∈ clients h → ∃ ch, send h !! c = Some ch ∧ closed ch = false.

(** A queue after a payload went in, and after [close]. *)
Definition queued (m : bytes) (ch : chan) : chan :=
  {| buf := buf ch ++ [m]; closed := false |}.
Definition closedQueue (ch : chan) : chan :=
  {| buf := buf ch; closed := true |}.

(** What [writePump] puts on the connection. *)
Inductive frame :=
| TextMessage (data : bytes)
| CloseMessage
| PingMessage.

(** The byte ['\n']. *)
Definition newline : Byte.byte := Byte.x0a.

(** What the connection answers to the calls of one turn of [writePump]:
    whether [c.conn.NextWriter] returns a writer, whether the writer sends
    the message and [w.Close] returns [nil] (the results of [w.Write] are
    not looked at by the code), and whether [c.conn.WriteMessage] sends its
    frame. *)
Record conn := {
  NextWriter_ok : bool;
  Close_ok : bool;
  WriteMessage_ok : bool
}.

(** One turn of the loop of [writePump] on the case
    [message, ok := <-c.send], with the queue as it stands.  A receive takes
    the oldest pending payload, from a closed channel too; on an empty
    closed channel it yields [ok = false], and on an empty open one it
    waits ([None]).  With [ok = false] the turn writes a close frame, the
    result of the write ignored, and returns.  Otherwise it asks for a
    writer and returns if there is none, [message] already taken; it writes
    [message] and then, for each of the [len(c.send)] payloads still
    queued, a newline and the payload taken from the queue, all in one text
    message, and returns if [w.Close] fails.  The result is what reached the
    peer, if anything, the queue afterwards, and whether the loop goes on;
    when it does not, the deferred [c.conn.Close()] runs and what is left in
    the queue is never read. *)
Definition writePump_message (cn : conn) (ch : chan)
    : option (option frame * chan * bool) :=
  match buf ch with
  | message :: pending =>
      if negb (NextWriter_ok cn)
      then Some (None, {| buf := pending; closed := closed ch |}, false)
      else if negb (Close_ok cn)
      then Some (None, {| buf := []; closed := closed ch |}, false)
      else Some (Some (TextMessage (message ++ concat ((λ m, newline :: m) <$> pending))),
                 {| buf := []; closed := closed ch |}, true)
  | [] =>
      if closed ch
      then Some (if WriteMessage_ok cn then Some CloseMessage else None, ch, false)
      else None
  end.

(** The ticker case of the same loop: a ping, and the loop returns if the
    write fails. *)
Definition writePump_ticker (cn : conn) : option frame * bool :=
  if WriteMessage_ok cn then (Some PingMessage, true) else (None, false).

(** The reader's side of a text frame: the pieces between its newlines. *)
Fixpoint lines (data : bytes) : list bytes :=
  match data with
  | [] => [[]]
  | b :: rest =>
      if Byte.eqb b newline then [] :: lines rest
      else match lines rest with
           | l :: ls => (b :: l) :: ls
           | [] => [[b]]
           end
  end.

(** [GetClientCount]: [len(h.clients)]. *)
Definition GetClientCount (h : Hub) : nat := size (clients h).

(** The hub loop serving the broadcasts [ms] one after the other, no other
    request and no delivery in between. *)
Fixpoint Run_broadcasts (ms : list bytes) (h : Hub) : option Hub :=
  match ms with
  | [] => Some h
  | m :: rest => h' ← Run_broadcast m h; Run_broadcasts rest h'
  end.

(** What holds of every session ever allocated: its queue is open exactly
    while it is in the active set, and never holds more than its capacity. *)
Definition hub_inv (h : Hub) : Prop :=
  (∀ c, c ∈ clients h → is_Some (send h !! c))
  ∧ (∀ c ch, send h !! c = Some ch →
       (c ∈ clients h ↔ closed ch = false)
       ∧ (length (buf ch) ≤ sendCap)%nat).

End Websocket.

(* ===================================================================== *)
(** * cmd/server/main.go and package api *)
(* ===================================================================== *)

Module Server.
Import Websocket.

(** One turn of [for eq := range earthquakeChan { hub.BroadcastEarthquake(eq) }]
    in [startWebSocketNotifications], followed by the hub loop serving the
    broadcast: [None] while the channel is empty (the loop waits) or if the
    hub panics. *)
Definition startWebSocketNotifications_step (json_Marshal : Message → option bytes)
    (em : EarthquakeManager) (h : Hub) : option (EarthquakeManager * Hub) :=
  match newEarthquakeChan em with
  | [] => None
  | eq :: _ => h' ← broadcast json_Marshal eq h; Some (receive em, h')
  end.

(** What [handleGetEarthquakes] does with its [ResponseWriter]: it calls
    [http.Error] with [StatusMethodNotAllowed], or the encoder wrote the
    body and returned [nil], or the encoder returned an error and the
    handler calls [http.Error] with [StatusInternalServerError]. *)
Inductive response :=
| MethodNotAllowed
| OK (body : bytes)
| InternalServerError.

(** The list [earthquakes] that [handleGetEarthquakes] selects; [oceano] and
    [region] are what [r.URL.Query().Get] returns, the empty string for an
    absent parameter. *)
Definition handleGetEarthquakes_earthquakes (oceano region : string)
    (em : EarthquakeManager) : list Earthquake :=
  if negb (oceano =? "")%string then GetByOceano oceano em
  else if negb (region =? "")%string then GetByRegion region em
  else GetAll em.

(** [handleGetEarthquakes]; [json_Encode l] stands for
    [json.NewEncoder(w).Encode(l)]: the body written when it returns [nil],
    [None] when it returns an error, as it does for a magnitude, coordinate
    or depth that is NaN or infinite. *)
Definition handleGetEarthquakes (json_Encode : list Earthquake → option bytes)
    (method oceano region : string) (em : EarthquakeManager) : response :=
  if negb (method =? "GET")%string then MethodNotAllowed
  else match json_Encode (handleGetEarthquakes_earthquakes oceano region em) with
       | Some body => OK body
       | None => InternalServerError
       end.

End Server.

(* ===================================================================== *)
(** * The classifier as the specification words it *)
(* ===================================================================== *)

Module GeometrySpec.

Local Open Scope float_scope.

(** The edges [(p_i, p_{i+1})], indices modulo the length: every point
    paired with its successor, the last one with the first. *)
Definition edges (polygon : Polygon) : list (Point * Point) :=
  match polygon with
  | [] => []
  | p :: rest => zip polygon (rest ++ [p])
  end.

(** Exactly one endpoint's latitude is strictly greater than the point's. *)
Definition straddles (point p1 p2 : Point) : bool :=
  xorb (fgt (Lat p1) (Lat point)) (fgt (Lat p2) (Lat point)).

(** The longitude of the edge at the point's latitude, by linear
    interpolation. *)
Definition interpolatedLon (point p1 p2 : Point) : float :=
  Lon p1 + (Lat point - Lat p1) * ((Lon p2 - Lon p1) / (Lat p2 - Lat p1)).

(** An edge counts as an intersection. *)
Definition counts (point : Point) (e : Point * Point) : bool :=
  straddles point e.1 e.2 && fgt (interpolatedLon point e.1 e.2) (Lon point).

Definition intersectionCount (point : Point) (polygon : Polygon) : nat :=
  length (List.filter (counts point) (edges polygon)).

(** Inside iff the polygon has at least 3 points and the count is odd. *)
Definition inside (point : Point) (polygon : Polygon) : bool :=
  negb (length polygon <? 3)%nat && Nat.odd (intersectionCount point polygon).

(** Membership in a polygon group: inside any polygon of the list. *)
Definition insideAny (point : Point) (polygons : list Polygon) : bool :=
  existsb (PointInPolygon point) polygons.

(** The ordered decision list of [classify]: each check with the labels it
    assigns. *)
Definition decisionList (rd : RegionData) (point : Point)
    : list (bool * (string * string)) :=
  [ (PointInPolygon point (LatlonCPWorld rd),
       ("Pacifico"%string,
        if PointInPolygon point (LatlonPacificoLocal rd) then "local"%string
        else if PointInPolygon point (LatlonPacificoRegional rd) then "regional"%string
        else "lejano"%string));
    (PointInPolygon point (LatlonPacificoLocal rd), ("Pacifico", "local")%string);
    (PointInPolygon point (LatlonPacificoRegional rd), ("Pacifico", "regional")%string);
    (PointInPolygon point (LatlonPacificoLocal20Km rd), ("Pacifico", "local")%string);
    (insideAny point (LatlonCCWorld rd), ("Caribe", "lejano")%string);
    (insideAny point (LatlonCaribeRegional rd), ("Caribe", "regional")%string);
    (PointInPolygon point (LatlonCaribeLocal rd)
       || PointInPolygon point (LatlonCaribeLocalInsular rd),
     ("Caribe", "local")%string) ].

(** First match wins. *)
Fixpoint firstMatch {A} (checks : list (bool * A)) (otherwise : A) : A :=
  match checks with
  | [] => otherwise
  | (true, r) :: _ => r
  | (false, _) :: rest => firstMatch rest otherwise
  end.

Definition classify (rd : RegionData) (point : Point) : string * string :=
  firstMatch (decisionList rd point) ("Uncategorized", "Uncategorized")%string.

(** ** The edge test with its division made partial *)

(** [x == 0] on float64: true of both signed zeros. *)
Definition isZero (x : float) : bool := x =? 0.

(** A division that fails on a zero divisor. *)
Definition checkedDiv (x y : float) : option float :=
  if isZero y then None else Some (x / y).

(** [rayIntersectsSegment] with [/] replaced by [checkedDiv]: [None] is a
    division by zero. *)
Definition rayIntersectsSegment_checked (point p1 p2 : Point) : option bool :=
  if Bool.eqb (fgt (Lat p1) (Lat point)) (fgt (Lat p2) (Lat point)) then Some false
  else
    slope ← checkedDiv (Lon p2 - Lon p1) (Lat p2 - Lat p1);
    let intersectionLon := Lon p1 + (Lat point - Lat p1) * slope in
    Some (Lon point <? intersectionLon).

(** Every polygon of a configuration, groups flattened. *)
Definition allPolygons (rd : RegionData) : list Polygon :=
  [LatlonCPWorld rd; LatlonPacificoLocal rd; LatlonPacificoRegional rd;
   LatlonPacificoLocal20Km rd]
  ++ LatlonCCWorld rd ++ LatlonCaribeRegional rd
  ++ [LatlonCaribeLocal rd; LatlonCaribeLocalInsular rd].

End GeometrySpec.

(* ===================================================================== *)
(** * Test fixtures *)
(* ===================================================================== *)

Module Fixtures.

Local Open Scope float_scope.

Definition square : Polygon :=
  [ {| Lat := 0; Lon := 0 |}; {| Lat := 0; Lon := 10 |};
    {| Lat := 10; Lon := 10 |}; {| Lat := 10; Lon := 0 |} ].

(** The square is both the Pacific local polygon and a polygon of the
    Caribbean regional group; nothing else is configured. *)
Definition overlapping : RegionData :=
  {| LatlonCPWorld := []; LatlonPacificoLocal := square;
     LatlonPacificoRegional := []; LatlonPacificoLocal20Km := [];
     LatlonCCWorld := []; LatlonCaribeRegional := [square];
     LatlonCaribeLocal := []; LatlonCaribeLocalInsular := [] |}.

(** An event as a feed client builds it: no labels yet. *)
Definition event (id : string) (lat lon : float) (time : Z) : Earthquake :=
  {| ID := id; Magnitude := 5; Location := "";
     Latitude := lat; Longitude := lon; Depth := 10;
     Time := time; Source := "USGS";
     Oceano := ""; OceanoRegion := ""; URL := "" |}.

Definition day : Z := 24 * 3600 * 1000000000.

(** A manager holding the event ["a"] at (5,5), classified with the
    overlapping fixture. *)
Definition holding_a : EarthquakeManager :=
  (AddEarthquake (Some overlapping) (event "a" 5 5 0)
     (NewEarthquakeManager (7 * day))).1.

(** Two events seen from the instant [100 * day]: one eight days old, one
    six days old, in a manager that keeps seven days. *)
Definition eightDaysOld : Earthquake :=
  set_labels (event "old" 5 5 (100 * day - 8 * day)) "Pacifico" "local".
Definition sixDaysOld : Earthquake :=
  set_labels (event "recent" 5 5 (100 * day - 6 * day)) "Pacifico" "local".
Definition holding_old_and_recent : EarthquakeManager :=
  {| earthquakes := <["old" := eightDaysOld]> (<["recent" := sixDaysOld]> ∅);
     maxAge := 7 * day; newEarthquakeChan := [] |}.

(** The same store with the least [int64] as retention window. *)
Definition leastDuration (em : EarthquakeManager) : EarthquakeManager :=
  {| earthquakes := earthquakes em; maxAge := - 2 ^ 63;
     newEarthquakeChan := newEarthquakeChan em |}.

(** Three events at (5,5) with times 1 < 2 < 3. *)
Definition t1 : Earthquake := event "t1" 5 5 1.
Definition t2 : Earthquake := event "t2" 5 5 2.
Definition t3 : Earthquake := event "t3" 5 5 3.

(** The same with a notification channel that is full. *)
Definition holding_a_full : EarthquakeManager :=
  {| earthquakes := earthquakes holding_a; maxAge := maxAge holding_a;
     newEarthquakeChan := replicate newEarthquakeChanCap (event "a" 5 5 0) |}.

(** Three sessions; the queue of session 2 is full. *)
Definition threeSessions : Websocket.Hub :=
  {| Websocket.clients := {[1%nat; 2%nat; 3%nat]};
     Websocket.send :=
       <[1%nat := Websocket.make_chan]>
         (<[2%nat := {| Websocket.buf := replicate Websocket.sendCap [];
                        Websocket.closed := false |}]>
            (<[3%nat := Websocket.make_chan]> ∅)) |}.

(** The hub after the first connection. *)
Definition oneSession : Websocket.Hub :=
  {| Websocket.clients := {[0%nat]};
     Websocket.send := {[0%nat := Websocket.make_chan]} |}.

(** A connection that accepts every write, and one that is gone. *)
Definition healthy : Websocket.conn :=
  {| Websocket.NextWriter_ok := true; Websocket.Close_ok := true;
     Websocket.WriteMessage_ok := true |}.
Definition broken : Websocket.conn :=
  {| Websocket.NextWriter_ok := false; Websocket.Close_ok := false;
     Websocket.WriteMessage_ok := false |}.

(** A stand-in for the JSON encoder: the identifiers of the events, one per
    line; it refuses a list holding a magnitude that is not a number. *)
Definition encodeIDs (l : list Earthquake) : option (list Byte.byte) :=
  if forallb (λ eq, PrimFloat.eqb (Magnitude eq) (Magnitude eq)) l
  then Some (concat ((λ eq, (String.list_byte_of_string (ID eq) ++ [Byte.x0a])%list) <$> l))
  else None.

(** A manager holding an accepted event whose magnitude is NaN. *)
Definition holding_nan : EarthquakeManager :=
  (AddEarthquake (Some overlapping)
     {| ID := "n"; Magnitude := PrimFloat.nan; Location := "";
        Latitude := 5; Longitude := 5; Depth := 10;
        Time := 0; Source := "USGS";
        Oceano := ""; OceanoRegion := ""; URL := "" |}
     (NewEarthquakeManager (7 * day))).1.

(** A stand-in for [json.Marshal]: the identifier of the event. *)
Definition marshalID (m : Websocket.Message) : option (list Byte.byte) :=
  Some (String.list_byte_of_string (ID (Websocket.Data m))).

(** What [LoadRegionData] leaves after unmarshalling [{}]: every field at
    its zero value. *)
Definition emptyRegions : RegionData :=
  {| LatlonCPWorld := []; LatlonPacificoLocal := [];
     LatlonPacificoRegional := []; LatlonPacificoLocal20Km := [];
     LatlonCCWorld := []; LatlonCaribeRegional := [];
     LatlonCaribeLocal := []; LatlonCaribeLocalInsular := [] |}.

End Fixtures.
Import Fixtures.

(* ===================================================================== *)
(** * Facts on binary64 arithmetic *)
(* ===================================================================== *)

Module FloatFacts.

Local Open Scope Z_scope.

(** ** Right shifts keep a mantissa positive while digits remain *)

Lemma shr_1_digits mrs k :
  shr_m mrs = Zpos k → (1 < Zpos (digits2_pos k)) →
  ∃ k', shr_m (shr_1 mrs) = Zpos k'
        ∧ Zpos (digits2_pos k') = Zpos (digits2_pos k) - 1.
Proof.
  destruct mrs as [m r s]. cbn [shr_m]. intros -> Hd.
  destruct k as [k|k|]; cbn [shr_1 shr_m digits2_pos] in *;
    [exists k|exists k|lia]; (split; [reflexivity|]);
    rewrite Pos2Z.inj_succ; lia.
Qed.

Lemma iter_shr_1_digits p : ∀ mrs k,
  shr_m mrs = Zpos k → Zpos p < Zpos (digits2_pos k) →
  ∃ k', shr_m (SpecFloat.iter_pos shr_1 p mrs) = Zpos k'
        ∧ Zpos (digits2_pos k') = Zpos (digits2_pos k) - Zpos p.
Proof.
  induction p as [p IH|p IH|]; intros mrs k Hm Hp; cbn [SpecFloat.iter_pos].
  - destruct (shr_1_digits mrs k Hm) as (k1 & Hm1 & Hd1); [lia|].
    destruct (IH _ k1 Hm1) as (k2 & Hm2 & Hd2); [lia|].
    destruct (IH _ k2 Hm2) as (k3 & Hm3 & Hd3); [lia|].
    exists k3. split; [exact Hm3|lia].
  - destruct (IH _ k Hm) as (k2 & Hm2 & Hd2); [lia|].
    destruct (IH _ k2 Hm2) as (k3 & Hm3 & Hd3); [lia|].
    exists k3. split; [exact Hm3|lia].
  - destruct (shr_1_digits mrs k Hm) as (k1 & Hm1 & Hd1); [lia|].
    exists k1. split; [exact Hm1|lia].
Qed.

Lemma shr_m_of_loc m l : shr_m (shr_record_of_loc m l) = m.
Proof. destruct l as [|[]]; reflexivity. Qed.

(** Rounding to the format a positive mantissa whose exponent is at least
    [emin] leaves a positive mantissa and an exponent at least [emin]. *)
Lemma shr_fexp_pos (m : positive) (e : Z) l :
  emin ≤ e →
  ∃ k, shr_m (shr_fexp prec emax (Zpos m) e l).1 = Zpos k
       ∧ emin ≤ (shr_fexp prec emax (Zpos m) e l).2.
Proof.
  intros He. unfold shr_fexp, shr. cbn [Zdigits2].
  destruct (fexp prec emax (Zpos (digits2_pos m) + e) - e) as [|n|n] eqn:Hn;
    cbn [fst snd]; try (exists m; split; [apply shr_m_of_loc|exact He]).
  destruct (iter_shr_1_digits n (shr_record_of_loc (Zpos m) l) m) as (k & Hk & _).
  - apply shr_m_of_loc.
  - unfold fexp, SpecFloat.emin, prec, emax in *. lia.
  - exists k. split; [exact Hk|lia].
Qed.

Lemma round_nearest_even_pos k l : ∃ k', round_nearest_even (Zpos k) l = Zpos k'.
Proof.
  destruct l as [|[]]; cbn [round_nearest_even]; try (by exists k).
  - destruct (Z.even (Zpos k)); [by exists k|]. by exists (k + 1)%positive.
  - by exists (k + 1)%positive.
Qed.

Lemma binary_round_aux_nonzero s (m : positive) (e : Z) l s0 :
  emin ≤ e → binary_round_aux prec emax s (Zpos m) e l ≠ S754_zero s0.
Proof.
  intros He. unfold binary_round_aux.
  destruct (shr_fexp_pos m e l He) as (k & Hk & He').
  destruct (shr_fexp prec emax (Zpos m) e l) as [mrs' e']. cbn [fst snd] in *.
  rewrite Hk. destruct (round_nearest_even_pos k (loc_of_shr_record mrs')) as [k' ->].
  destruct (shr_fexp_pos k' e' loc_Exact He') as (k'' & Hk'' & _).
  destruct (shr_fexp prec emax (Zpos k') e' loc_Exact) as [mrs'' e'']. cbn [fst] in *.
  rewrite Hk''. by destruct (e'' <=? emax - prec).
Qed.

Lemma binary_round_nonzero s (m : positive) (e : Z) s0 :
  emin ≤ e → binary_round prec emax s m e ≠ S754_zero s0.
Proof.
  intros He. unfold binary_round, shl_align.
  destruct (fexp prec emax (Zpos (digits2_pos m) + e) - e) eqn:Hd;
    apply binary_round_aux_nonzero; try exact He.
  unfold fexp. apply Z.le_max_r.
Qed.

(** ** Aligned mantissas *)

Lemma digits2_pos_iter_xO m d :
  Zpos (digits2_pos (Pos.iter xO m d)) = Zpos (digits2_pos m) + Zpos d.
Proof.
  induction d as [|d IH] using Pos.peano_ind.
  - cbn [Pos.iter digits2_pos]. lia.
  - rewrite Pos.iter_succ. cbn [digits2_pos]. lia.
Qed.

Lemma shl_align_digits (m : positive) (e e' : Z) :
  e' ≤ e →
  Zpos (digits2_pos (shl_align m e e').1) = Zpos (digits2_pos m) + (e - e')
  ∧ (e' = e → (shl_align m e e').1 = m).
Proof.
  intros He. unfold shl_align. destruct (e' - e) as [|d|d] eqn:Hd; cbn [fst].
  - split; [lia|done].
  - lia.
  - rewrite digits2_pos_iter_xO. split; lia.
Qed.

Lemma bounded_canonical m e :
  bounded prec emax m e = true →
  fexp prec emax (Zpos (digits2_pos m) + e) = e ∧ emin ≤ e.
Proof.
  unfold bounded, canonical_mantissa. intros [Hc _]%andb_true_iff.
  apply Z.eqb_eq in Hc. split; [exact Hc|]. rewrite <- Hc. apply Z.le_max_r.
Qed.

(** ** A difference that is zero *)

(** The difference of two floats is a zero only if the floats compare
    alike against everything: both are zeros, or they are the same finite
    number.  Gradual underflow is what makes this true. *)
Lemma SFsub_zero X Y s0 :
  valid_binary X = true → valid_binary Y = true →
  SF64sub Y X = S754_zero s0 →
  ∀ P, SFcompare P X = SFcompare P Y.
Proof.
  intros HX HY Hsub P.
  destruct X as [sx|sx| |sx mx ex], Y as [sy|sy| |sy my ey];
    try discriminate Hsub;
    try (by destruct P as [?|?| |? ? ?]);
    try (by destruct sx, sy).
  cbn [valid_binary] in HX, HY.
  apply bounded_canonical in HX as [HcX HeX], HY as [HcY HeY].
  unfold SF64sub, SFsub in Hsub. cbv zeta in Hsub.
  destruct (shl_align_digits mx ex (Z.min ey ex)) as [HdX HsX]; [lia|].
  destruct (shl_align_digits my ey (Z.min ey ex)) as [HdY HsY]; [lia|].
  unfold binary_normalize in Hsub.
  destruct (cond_Zopp sy (Zpos (shl_align my ey (Z.min ey ex)).1)
            - cond_Zopp sx (Zpos (shl_align mx ex (Z.min ey ex)).1)) eqn:HM;
    try (by apply binary_round_nonzero in Hsub; [|lia]).
  assert (sx = sy ∧ (shl_align mx ex (Z.min ey ex)).1 = (shl_align my ey (Z.min ey ex)).1)
    as [-> Hal].
  { destruct sx, sy; cbn [cond_Zopp] in HM; split; try reflexivity; try lia;
      assert (Zpos (shl_align mx ex (Z.min ey ex)).1 = Zpos (shl_align my ey (Z.min ey ex)).1)
        as Heq by lia; by injection Heq. }
  rewrite Hal in HdX.
  assert (ex = ey) as -> by (rewrite <- HcX, <- HcY; f_equal; lia).
  rewrite Z.min_id in HsX, HsY, Hal. rewrite HsX, HsY in Hal by reflexivity.
  by subst my.
Qed.

Lemma SFeqb_zero Z : SFeqb Z (S754_zero false) = true → ∃ s0, Z = S754_zero s0.
Proof.
  destruct Z as [s|s| |s m e]; unfold SFeqb; cbn [SFcompare]; try discriminate.
  - by exists s.
  - by destruct s.
  - by destruct s.
Qed.

(** Two floats that compare equal compare alike against everything. *)
Lemma SFcompare_Eq X Y :
  SFcompare X Y = Some Eq → ∀ P, SFcompare P X = SFcompare P Y.
Proof.
  intros Heq P.
  destruct X as [sx|sx| |sx mx ex], Y as [sy|sy| |sy my ey];
    cbn [SFcompare] in Heq; try discriminate Heq;
    try (by destruct P as [?|?| |? ? ?]);
    try (by destruct sx, sy); try (by destruct sx); try (by destruct sy).
  assert (sx = sy ∧ ex = ey ∧ mx = my) as (-> & -> & ->); [|reflexivity].
  destruct sx, sy; try discriminate Heq;
    destruct (ex ?= ey) eqn:He; try discriminate Heq;
    apply Z.compare_eq in He;
    (destruct (Pos.compare_cont Eq mx my) eqn:Hm; try discriminate Heq);
    apply Pos.compare_eq in Hm; done.
Qed.

Local Open Scope float_scope.

(** On float64: if exactly one of [x], [y] is above [p] then [x] and [y]
    differ and their difference is not a zero. *)
Lemma straddle_nonzero (p x y : float) :
  (p <? x) ≠ (p <? y) →
  (x =? y) = false ∧ (y - x =? 0) = false.
Proof.
  intros Hne. rewrite !FloatAxioms.ltb_spec in Hne. unfold SFltb in Hne. split.
  - apply not_true_is_false. intros Heq. rewrite FloatAxioms.eqb_spec in Heq.
    unfold SFeqb in Heq. apply Hne.
    rewrite (SFcompare_Eq (Prim2SF x) (Prim2SF y)); [reflexivity|].
    revert Heq.
    destruct (SFcompare (Prim2SF x) (Prim2SF y)) as [[| |]|]; intros H;
      (discriminate H || reflexivity).
  - apply not_true_is_false. intros Heq. rewrite FloatAxioms.eqb_spec, FloatAxioms.sub_spec in Heq.
    change (Prim2SF 0) with (S754_zero false) in Heq.
    apply SFeqb_zero in Heq as [s0 Hz]. apply Hne.
    by rewrite (SFsub_zero _ _ s0 (Prim2SF_valid x) (Prim2SF_valid y) Hz).
Qed.

End FloatFacts.

(* ===================================================================== *)
(** * Properties of the classifier *)
(* ===================================================================== *)

Module GeometryProofs.
Import GeometrySpec.
Local Open Scope float_scope.

Lemma rayIntersectsSegment_counts point p1 p2 :
  rayIntersectsSegment point p1 p2 = counts point (p1, p2).
Proof.
  unfold rayIntersectsSegment, counts, straddles, interpolatedLon, fgt; simpl.
  destruct (Lat point <? Lat p1)%float, (Lat point <? Lat p2)%float; reflexivity.
Qed.

Lemma nth_zip {A B} (l : list A) (k : list B) i d e :
  length l = length k →
  nth i (zip l k) (d, e) = (nth i l d, nth i k e).
Proof.
  revert k i. induction l as [|x l IH]; intros [|y k] [|i] Hlen;
    simpl in *; try reflexivity; try discriminate.
  apply IH. congruence.
Qed.

Lemma edges_length polygon : length (edges polygon) = length polygon.
Proof.
  destruct polygon as [|p rest]; [reflexivity|].
  unfold edges. rewrite length_zip_with, length_app. cbn [length]. lia.
Qed.

Lemma edges_nth polygon i :
  (i < length polygon)%nat →
  nth i (edges polygon) (zeroPoint, zeroPoint) =
    (nth i polygon zeroPoint,
     nth ((i + 1) mod length polygon) polygon zeroPoint).
Proof.
  destruct polygon as [|p rest]; cbn [length]; [lia|]. intros Hi.
  unfold edges. rewrite nth_zip by (rewrite length_app; cbn [length]; lia).
  f_equal.
  destruct (decide (i < length rest)%nat) as [Hlt|Hge].
  - rewrite app_nth1 by assumption.
    rewrite Nat.mod_small by lia. rewrite Nat.add_1_r. reflexivity.
  - assert (i = length rest) as -> by lia.
    rewrite app_nth2 by lia. rewrite Nat.sub_diag, Nat.add_1_r.
    rewrite Nat.Div0.mod_same. reflexivity.
Qed.

(** The loop from index [i] on adds to the counter the number of counting
    edges among those from [i] on. *)
Lemma PointInPolygon_loop_count point polygon todo : ∀ i acc,
  (i + todo = length polygon)%nat →
  PointInPolygon_loop point polygon (length polygon) todo i acc =
    (acc + Z.of_nat (length (List.filter (counts point)
                                (drop i (edges polygon)))))%Z.
Proof.
  induction todo as [|todo IH]; intros i acc Hi.
  - rewrite drop_ge by (rewrite edges_length; lia). simpl. lia.
  - cbn [PointInPolygon_loop].
    rewrite IH by lia.
    rewrite rayIntersectsSegment_counts, <- edges_nth by lia.
    assert (Hd : drop i (edges polygon) =
                 nth i (edges polygon) (zeroPoint, zeroPoint)
                   :: drop (i + 1) (edges polygon)).
    { rewrite Nat.add_1_r. apply drop_S.
      destruct (nth_lookup_or_length (edges polygon) i (zeroPoint, zeroPoint))
        as [Hn|Hn]; [exact Hn|]. rewrite edges_length in Hn. lia. }
    rewrite Hd. cbn [List.filter].
    destruct (counts point _); cbn [length]; lia.
Qed.

Lemma odd_mod2 (n : nat) : (Z.of_nat n mod 2 =? 1)%Z = Nat.odd n.
Proof.
  assert (H : Z.odd (Z.of_nat n) = Nat.odd n ∧ Z.even (Z.of_nat n) = Nat.even n).
  { induction n as [|n [IHo IHe]]; [split; reflexivity|].
    rewrite Nat2Z.inj_succ, Z.odd_succ, Z.even_succ, Nat.odd_succ, Nat.even_succ.
    split; assumption. }
  destruct H as [<- _]. rewrite Zmod_odd.
  destruct (Z.odd (Z.of_nat n)); reflexivity.
Qed.

Lemma PointInPolygon_inside point polygon :
  PointInPolygon point polygon = inside point polygon.
Proof.
  unfold PointInPolygon, inside, intersectionCount.
  destruct (length polygon <? 3)%nat; [reflexivity|]. cbn [negb andb].
  rewrite PointInPolygon_loop_count by lia.
  rewrite drop_0, Z.add_0_l. apply odd_mod2.
Qed.

Lemma evaluarPuntosMultiples_insideAny point polygons :
  evaluarPuntosMultiples point polygons = insideAny point polygons.
Proof.
  unfold insideAny. induction polygons as [|polygon rest IH]; [reflexivity|].
  simpl. rewrite IH. destruct (PointInPolygon point polygon); reflexivity.
Qed.

(** A polygon with fewer than 3 points contains nothing, so the length
    guards in front of two of the checks change no outcome. *)
Lemma nonempty_guard point polygon :
  (0 <? length polygon)%nat && PointInPolygon point polygon
  = PointInPolygon point polygon.
Proof.
  destruct polygon as [|p rest]; [|reflexivity].
  reflexivity.
Qed.

Lemma CategorizeEarthquake_classify rd eq :
  CategorizeEarthquake (Some rd) eq =
    let point := {| Lat := Latitude eq; Lon := Longitude eq |} in
    set_labels eq (classify rd point).1 (classify rd point).2.
Proof.
  unfold CategorizeEarthquake, classify, decisionList, determinarRegionPacifico.
  cbv zeta. rewrite !nonempty_guard, !evaluarPuntosMultiples_insideAny.
  cbn [firstMatch].
  repeat match goal with
         | |- context [if ?b then _ else _] => destruct b; try reflexivity
         end.
Qed.

(** C4: [PointInPolygon] is ray casting as specified.  An edge counts iff
    exactly one endpoint's latitude is strictly greater than the point's
    and the interpolated longitude of the edge at the point's latitude is
    strictly greater than the point's longitude; over the edges of the
    closed loop the point is inside iff the polygon has at least 3 points
    and the number of counting edges is odd; polygons of 0, 1 or 2 points
    contain no point; the square [(0,0),(0,10),(10,10),(10,0)] contains
    (5,5) and does not contain (15,15). *)
Theorem PointInPolygon_ray_casting :
  (∀ point p1 p2,
     rayIntersectsSegment point p1 p2 =
       xorb (fgt (Lat p1) (Lat point)) (fgt (Lat p2) (Lat point))
       && fgt (interpolatedLon point p1 p2) (Lon point))
  ∧ (∀ point polygon,
       PointInPolygon point polygon =
         negb (length polygon <? 3)%nat
         && Nat.odd (length (List.filter
                               (λ e, rayIntersectsSegment point e.1 e.2)
                               (edges polygon))))
  ∧ (∀ point p q,
       PointInPolygon point [] = false ∧ PointInPolygon point [p] = false
       ∧ PointInPolygon point [p; q] = false)
  ∧ PointInPolygon {| Lat := 5; Lon := 5 |} square = true
  ∧ PointInPolygon {| Lat := 15; Lon := 15 |} square = false.
Proof.
  split; [|split; [|split; [|split]]].
  - intros. apply rayIntersectsSegment_counts.
  - intros point polygon. rewrite PointInPolygon_inside.
    unfold inside, intersectionCount. do 3 f_equal.
    apply filter_ext. intros [p1 p2]. symmetry. apply rayIntersectsSegment_counts.
  - intros. repeat split; reflexivity.
  - vm_compute. reflexivity.
  - vm_compute. reflexivity.
Qed.

(** The order of the operations matters on binary64.  From (3, 0.6) the edge
    (0,0)-(5,1) counts, its longitude at latitude 3 being computed as
    [3 * (1 / 5)], just above 0.6; with the product taken first, [3 * 1 / 5]
    is 0.6 and the edge would not count.  The model keeps the order of the
    source: the slope first. *)
Remark interpolation_slope_first :
  let point := {| Lat := 3; Lon := 3 / 5 |} in
  let p1 := {| Lat := 0; Lon := 0 |} in
  let p2 := {| Lat := 5; Lon := 1 |} in
  rayIntersectsSegment point p1 p2 = true
  ∧ (Lon point
     <? Lon p1 + (Lat point - Lat p1) * (Lon p2 - Lon p1) / (Lat p2 - Lat p1))
    = false.
Proof. vm_compute. split; reflexivity. Qed.

(** C3: with a loaded configuration [CategorizeEarthquake] writes the labels
    of the first matching entry of the decision list Pacific world (with
    the nested local, regional, distant resolution), Pacific local, Pacific
    regional, Pacific local-20km, Caribbean world group, Caribbean regional
    group, Caribbean local or insular, and the unclassified labels when
    none matches; a point inside both the Pacific local polygon and a
    polygon of the Caribbean regional group is labelled Pacific, local. *)
Theorem CategorizeEarthquake_first_match rd eq :
  let point := {| Lat := Latitude eq; Lon := Longitude eq |} in
  CategorizeEarthquake (Some rd) eq =
    set_labels eq
      (firstMatch (decisionList rd point) ("Uncategorized", "Uncategorized")).1
      (firstMatch (decisionList rd point) ("Uncategorized", "Uncategorized")).2
  ∧ (PointInPolygon point (LatlonPacificoLocal rd) = true →
     (∃ polygon, In polygon (LatlonCaribeRegional rd)
                 ∧ PointInPolygon point polygon = true) →
     Oceano (CategorizeEarthquake (Some rd) eq) = "Pacifico"
     ∧ OceanoRegion (CategorizeEarthquake (Some rd) eq) = "local").
Proof.
  intros point. split; [apply CategorizeEarthquake_classify|].
  intros Hlocal _. rewrite CategorizeEarthquake_classify.
  fold point. unfold classify, decisionList. cbn [firstMatch].
  rewrite Hlocal. destruct (PointInPolygon point (LatlonCPWorld rd)); split; reflexivity.
Qed.

(** C10: the edge test never divides by zero.  With the division made
    partial the function still returns, and returns what
    [rayIntersectsSegment] returns; whenever the straddle test lets the
    computation through, the two latitudes differ and the divisor
    [p2.Lat - p1.Lat] is not a zero; an edge with equal latitudes fails the
    straddle test and is rejected by the early return. *)
Theorem rayIntersectsSegment_division_guarded point p1 p2 :
  rayIntersectsSegment_checked point p1 p2
  = Some (rayIntersectsSegment point p1 p2)
  ∧ (fgt (Lat p1) (Lat point) ≠ fgt (Lat p2) (Lat point) →
     (Lat p1 =? Lat p2)%float = false
     ∧ isZero (Lat p2 - Lat p1) = false)
  ∧ ((Lat p1 =? Lat p2)%float = true →
     fgt (Lat p1) (Lat point) = fgt (Lat p2) (Lat point)
     ∧ rayIntersectsSegment point p1 p2 = false).
Proof.
  assert (Hguard : fgt (Lat p1) (Lat point) ≠ fgt (Lat p2) (Lat point) →
            (Lat p1 =? Lat p2)%float = false
            ∧ isZero (Lat p2 - Lat p1) = false).
  { unfold fgt, isZero. apply FloatFacts.straddle_nonzero. }
  split; [|split; [exact Hguard|]].
  - unfold rayIntersectsSegment_checked, rayIntersectsSegment, checkedDiv.
    destruct (Bool.eqb _ _) eqn:Hstraddle; [reflexivity|].
    apply eqb_false_iff in Hstraddle. destruct (Hguard Hstraddle) as [_ ->].
    reflexivity.
  - intros Heq.
    assert (Hsame : fgt (Lat p1) (Lat point) = fgt (Lat p2) (Lat point)).
    { destruct (bool_decide (fgt (Lat p1) (Lat point) = fgt (Lat p2) (Lat point)))
        eqn:Hdec; [by apply bool_decide_eq_true in Hdec|].
      apply bool_decide_eq_false in Hdec. destruct (Hguard Hdec) as [Hne _].
      congruence. }
    split; [exact Hsame|]. unfold rayIntersectsSegment.
    rewrite Hsame, eqb_reflx. reflexivity.
Qed.

(** Witness of [rayIntersectsSegment_division_guarded]: from (5,5), the edge
    (0,10)-(10,10) of the square passes the straddle test, and the edge
    (0,0)-(0,10), of constant latitude, does not. *)
Lemma rayIntersectsSegment_division_guarded_witness :
  isZero (10 - 0) = false
  ∧ rayIntersectsSegment {| Lat := 5; Lon := 5 |}
      {| Lat := 0; Lon := 0 |} {| Lat := 0; Lon := 10 |} = false.
Proof.
  split.
  - apply (rayIntersectsSegment_division_guarded {| Lat := 5; Lon := 5 |}
             {| Lat := 0; Lon := 10 |} {| Lat := 10; Lon := 10 |}).
    vm_compute. discriminate.
  - apply (rayIntersectsSegment_division_guarded {| Lat := 5; Lon := 5 |}
             {| Lat := 0; Lon := 0 |} {| Lat := 0; Lon := 10 |}).
    vm_compute. reflexivity.
Defined.

(** Witness of [CategorizeEarthquake_first_match]: the overlapping fixture
    at (5,5). *)
Lemma CategorizeEarthquake_first_match_witness :
  Oceano (CategorizeEarthquake (Some overlapping) (event "a" 5 5 0)) = "Pacifico"
  ∧ OceanoRegion (CategorizeEarthquake (Some overlapping) (event "a" 5 5 0)) = "local".
Proof.
  apply (proj2 (CategorizeEarthquake_first_match overlapping (event "a" 5 5 0))).
  - vm_compute. reflexivity.
  - exists square. split; [left; reflexivity | vm_compute; reflexivity].
Defined.

End GeometryProofs.

(* ===================================================================== *)
(** * Properties of the event manager *)
(* ===================================================================== *)

Module ManagerProofs.

(** ** Sorting *)

Section sort_Slice.
Context {A : Type} (less : A → A → bool).
Hypothesis less_asym : ∀ a b, less a b = true → less b a = false.

Local Abbreviation before := (mayPrecede less).

Lemma sort_insert_perm x l : sort_insert less x l ≡ₚ x :: l.
Proof.
  induction l as [|y l IH]; simpl; [reflexivity|].
  destruct (less y x); [|reflexivity].
  rewrite IH. apply perm_swap.
Qed.

Lemma sort_Slice_perm l : sort_Slice less l ≡ₚ l.
Proof.
  induction l as [|x l IH]; simpl; [reflexivity|].
  rewrite sort_insert_perm, IH. reflexivity.
Qed.

Lemma sort_insert_hd a x l :
  before a x → HdRel before a l → HdRel before a (sort_insert less x l).
Proof.
  unfold mayPrecede. intros Hax Hal. destruct l as [|y l]; simpl; [by constructor|].
  destruct (less y x); constructor; [|assumption].
  by inversion Hal.
Qed.

Lemma sort_insert_sorted x l :
  Sorted before l → Sorted before (sort_insert less x l).
Proof.
  unfold mayPrecede. induction 1 as [|y l Hl IH Hhd]; simpl; [by repeat constructor|].
  destruct (less y x) eqn:Hyx.
  - constructor; [exact IH|]. apply sort_insert_hd; [|exact Hhd].
    by apply less_asym.
  - constructor; [by constructor|]. by constructor.
Qed.

Lemma sort_Slice_sorted l : Sorted before (sort_Slice less l).
Proof.
  induction l as [|x l IH]; simpl; [constructor|].
  by apply sort_insert_sorted.
Qed.

End sort_Slice.

Lemma byTimeDesc_asym a b : byTimeDesc a b = true → byTimeDesc b a = false.
Proof. unfold byTimeDesc, After. intros H%Z.ltb_lt. apply Z.ltb_ge. lia. Qed.

Lemma sort_byTimeDesc_sorted l : timeDescending (sort_Slice byTimeDesc l).
Proof.
  unfold timeDescending.
  eapply Sorted_ind with (P := λ l, Sorted (λ a b, (Time b ≤ Time a)%Z) l);
    [constructor| |apply (sort_Slice_sorted byTimeDesc byTimeDesc_asym l)].
  intros a l' _ IH Hhd. constructor; [exact IH|].
  destruct Hhd as [|b l'' Hab]; constructor.
  unfold mayPrecede, byTimeDesc, After in Hab. by apply Z.ltb_ge in Hab.
Qed.

Lemma elem_of_sort_Slice {A} (less : A → A → bool) x l :
  x ∈ sort_Slice less l ↔ x ∈ l.
Proof. by rewrite sort_Slice_perm. Qed.

(** ** Labels *)

Lemma isCategorized_labeled eq : isCategorized eq = true ↔ labeled eq.
Proof.
  unfold isCategorized, labeled.
  rewrite !andb_true_iff, !negb_true_iff, !String.eqb_neq. tauto.
Qed.

Lemma notCategorized_isCategorized eq : notCategorized eq = negb (isCategorized eq).
Proof.
  unfold notCategorized, isCategorized.
  rewrite !negb_andb, !negb_involutive. reflexivity.
Qed.

Lemma CategorizeEarthquake_ID rd eq : ID (CategorizeEarthquake rd eq) = ID eq.
Proof.
  destruct rd as [rd|]; [|reflexivity].
  rewrite GeometryProofs.CategorizeEarthquake_classify. reflexivity.
Qed.

Lemma CategorizeEarthquake_Time rd eq : Time (CategorizeEarthquake rd eq) = Time eq.
Proof.
  destruct rd as [rd|]; [|reflexivity].
  rewrite GeometryProofs.CategorizeEarthquake_classify. reflexivity.
Qed.

(** Classifying an already classified record changes nothing: the labels
    depend on the coordinates only. *)
Lemma CategorizeEarthquake_idem rd eq :
  CategorizeEarthquake rd (CategorizeEarthquake rd eq) = CategorizeEarthquake rd eq.
Proof.
  destruct rd as [rd|]; [|reflexivity].
  rewrite !GeometryProofs.CategorizeEarthquake_classify. reflexivity.
Qed.

(** ** [CleanOld] *)

Lemma CleanOld_fold cutoff l : ∀ m n,
  (∀ k, (fold_left (CleanOld_body cutoff) l (m, n)).1 !! k =
        if existsb (λ e, bool_decide (e.1 = k) && Before (Time e.2) cutoff) l
        then None else m !! k)
  ∧ (fold_left (CleanOld_body cutoff) l (m, n)).2 =
      (n + Z.of_nat (length (List.filter (λ e, Before (Time e.2) cutoff) l)))%Z.
Proof.
  induction l as [|[id eq] l IH]; intros m n; [simpl; split; [done|lia]|].
  cbn [fold_left existsb List.filter].
  unfold CleanOld_body at 2 4. cbn [fst snd].
  destruct (Before (Time eq) cutoff) eqn:Hold.
  - destruct (IH (delete id m) (n + 1)%Z) as [IHm IHn]. split.
    + intros k. rewrite IHm. rewrite andb_true_r.
      destruct (existsb _ l); [by rewrite orb_true_r|]. rewrite orb_false_r.
      case_bool_decide; simplify_map_eq; done.
    + rewrite IHn. cbn [length]. lia.
  - destruct (IH m n) as [IHm IHn]. split.
    + intros k. rewrite IHm, andb_false_r. reflexivity.
    + exact IHn.
Qed.

Lemma existsb_old_map_to_list cutoff (m : gmap string Earthquake) k :
  existsb (λ e, bool_decide (e.1 = k) && Before (Time e.2) cutoff) (map_to_list m)
  = match m !! k with Some eq => Before (Time eq) cutoff | None => false end.
Proof.
  apply eq_true_iff_eq. rewrite existsb_exists. split.
  - intros [[id eq] [Hin Hb]]. apply andb_true_iff in Hb as [Hk Hold].
    apply bool_decide_eq_true in Hk. simpl in *. subst id.
    apply list_elem_of_In, elem_of_map_to_list in Hin. by rewrite Hin.
  - destruct (m !! k) as [eq|] eqn:Hk; [|done]. intros Hold.
    exists (k, eq). split.
    + by apply list_elem_of_In, elem_of_map_to_list.
    + simpl. rewrite Hold. by rewrite bool_decide_eq_true_2.
Qed.

Lemma filter_snd_length {K A} (f : A → bool) (l : list (K * A)) :
  length (List.filter (λ e, f e.2) l) = length (List.filter f (l.*2)).
Proof.
  induction l as [|[k a] l IH]; [done|]. cbn [List.filter fmap list_fmap snd].
  destruct (f a); cbn [length]; by rewrite IH.
Qed.

(** Away from the least [int64] the cutoff is [now - maxAge]. *)
Lemma CleanOld_cutoff_exact now em :
  (- 2 ^ 63 < maxAge em < 2 ^ 63)%Z →
  CleanOld_cutoff now em = (now - maxAge em)%Z.
Proof.
  intros Hage. unfold CleanOld_cutoff, Duration_neg, wrap64.
  rewrite Z.mod_small by lia. lia.
Qed.

Lemma CleanOld_lookup now em id :
  earthquakes (CleanOld now em).1 !! id =
    match earthquakes em !! id with
    | Some eq => if Before (Time eq) (CleanOld_cutoff now em) then None else Some eq
    | None => None
    end.
Proof.
  unfold CleanOld.
  pose proof (CleanOld_fold (CleanOld_cutoff now em) (map_to_list (earthquakes em))
                (earthquakes em) 0%Z) as [Hm _].
  destruct (fold_left _ _ _) as [m removed]. cbn [fst earthquakes] in *.
  rewrite Hm, existsb_old_map_to_list.
  destruct (earthquakes em !! id) as [eq|]; [|done].
  by destruct (Before (Time eq) _).
Qed.

Lemma CleanOld_removed now em :
  (CleanOld now em).2 =
    Z.of_nat (length (List.filter (λ eq, Before (Time eq) (CleanOld_cutoff now em))
                        (range_values em))).
Proof.
  unfold CleanOld, range_values.
  pose proof (CleanOld_fold (CleanOld_cutoff now em) (map_to_list (earthquakes em))
                (earthquakes em) 0%Z) as [_ Hn].
  destruct (fold_left _ _ _) as [m removed]. cbn [snd] in *. rewrite Hn.
  rewrite Z.add_0_l. f_equal.
  apply (filter_snd_length (λ eq, Before (Time eq) (CleanOld_cutoff now em))).
Qed.

Lemma CleanOld_chan now em :
  newEarthquakeChan (CleanOld now em).1 = newEarthquakeChan em
  ∧ maxAge (CleanOld now em).1 = maxAge em.
Proof. unfold CleanOld. by destruct (fold_left _ _ _). Qed.

(** ** The store invariant holds in every reachable state *)

Lemma store_inv_AddEarthquake rd eq em :
  store_inv rd em → store_inv rd (AddEarthquake rd eq em).1.
Proof.
  intros Hinv. unfold AddEarthquake.
  destruct (earthquakes em !! ID eq) eqn:Hlook; [exact Hinv|].
  destruct (notCategorized _) eqn:Hcat; [exact Hinv|].
  intros id eq'. cbn [fst earthquakes].
  rewrite lookup_insert. case_decide as Hid.
  - intros [= <-]. split; [exact Hid|]. split.
    + apply isCategorized_labeled.
      rewrite notCategorized_isCategorized in Hcat. by apply negb_false_iff.
    + apply CategorizeEarthquake_idem.
  - apply Hinv.
Qed.

Lemma store_inv_AddEarthquakes_loop rd eqs : ∀ em acc,
  store_inv rd em → store_inv rd (AddEarthquakes_loop rd eqs em acc).1.
Proof.
  induction eqs as [|eq eqs IH]; intros em acc Hinv; [exact Hinv|].
  cbn [AddEarthquakes_loop].
  pose proof (store_inv_AddEarthquake rd eq em Hinv) as Hstep.
  destruct (AddEarthquake rd eq em) as [em' added]. by apply IH.
Qed.

Lemma store_inv_CleanOld rd now em :
  store_inv rd em → store_inv rd (CleanOld now em).1.
Proof.
  intros Hinv id eq. rewrite CleanOld_lookup.
  destruct (earthquakes em !! id) as [eq'|] eqn:Hlook; [|done].
  destruct (Before _ _); [done|]. intros [= <-]. by apply Hinv.
Qed.

Lemma reachable_store_inv rd em : reachable rd em → store_inv rd em.
Proof.
  induction 1 as [maxAge|eq em _ IH|eqs em _ IH|now em _ IH|em _ IH].
  - intros id eq. cbn. by rewrite lookup_empty.
  - by apply store_inv_AddEarthquake.
  - by apply store_inv_AddEarthquakes_loop.
  - by apply store_inv_CleanOld.
  - exact IH.
Qed.

Lemma elem_of_range_values em eq :
  eq ∈ range_values em ↔ ∃ id, earthquakes em !! id = Some eq.
Proof.
  unfold range_values. rewrite list_elem_of_fmap. split.
  - intros [[id eq'] [-> Hin]]. exists id. by apply elem_of_map_to_list.
  - intros [id Hid]. exists (id, eq). split; [done|]. by apply elem_of_map_to_list.
Qed.

(** Whatever a query returns is an entry of the index. *)
Lemma runQuery_stored q em eq :
  eq ∈ runQuery q em → ∃ id, earthquakes em !! id = Some eq.
Proof.
  intros Hin. apply elem_of_range_values.
  destruct q; cbn [runQuery] in Hin;
    unfold GetAll, GetByOceano, GetByRegion, GetByTimeRange in Hin;
    apply elem_of_sort_Slice, list_elem_of_In, filter_In in Hin as [Hin _];
    by apply list_elem_of_In.
Qed.

Lemma runQuery_sorted q em : timeDescending (runQuery q em).
Proof. destruct q; apply sort_byTimeDesc_sorted. Qed.

Lemma GetCount_length em :
  GetCount em = Z.of_nat (length (List.filter isCategorized (range_values em))).
Proof.
  unfold GetCount. generalize (range_values em). intros l.
  rewrite <- (Z.add_0_l (Z.of_nat _)). generalize 0%Z.
  induction l as [|eq l IH]; intros n; simpl; [lia|].
  rewrite IH. destruct (isCategorized eq); simpl; lia.
Qed.

(** Every deletion of the loop removes an entry that is still there. *)
Lemma CleanOld_fold_size cutoff l : ∀ (m : gmap string Earthquake) n,
  NoDup l.*1 →
  (∀ id eq, (id, eq) ∈ l → m !! id = Some eq) →
  (Z.of_nat (size (fold_left (CleanOld_body cutoff) l (m, n)).1)
   + (fold_left (CleanOld_body cutoff) l (m, n)).2
   = Z.of_nat (size m) + n)%Z.
Proof.
  induction l as [|[id eq] l IH]; intros m n Hnd Hin; [done|].
  cbn [fold_left]. cbn [fmap list_fmap fst] in Hnd.
  apply NoDup_cons in Hnd as [Hid Hnd].
  unfold CleanOld_body at 2 4. cbn [fst snd].
  destruct (Before (Time eq) cutoff).
  - rewrite IH; [|exact Hnd|].
    + assert (Hsome : is_Some (m !! id)) by (exists eq; apply Hin; left).
      rewrite (map_size_delete_Some id m Hsome).
      assert (size m ≠ 0%nat); [|lia].
      apply map_size_non_empty_iff. intros ->.
      destruct Hsome as [x Hx]. by rewrite lookup_empty in Hx.
    + intros id' eq' Hin'. rewrite lookup_delete_ne.
      * apply Hin. by right.
      * intros ->. apply Hid. apply list_elem_of_fmap. by exists (id', eq').
  - apply IH; [exact Hnd|]. intros id' eq' Hin'. apply Hin. by right.
Qed.

Lemma CleanOld_size now em :
  (Z.of_nat (size (earthquakes (CleanOld now em).1)) + (CleanOld now em).2
   = Z.of_nat (size (earthquakes em)))%Z.
Proof.
  pose proof (CleanOld_fold_size (CleanOld_cutoff now em) (map_to_list (earthquakes em))
                (earthquakes em) 0%Z (NoDup_fst_map_to_list _)) as H.
  unfold CleanOld. destruct (fold_left _ _ _) as [m removed].
  cbn [fst snd earthquakes] in *. rewrite H; [lia|].
  intros id eq. apply elem_of_map_to_list.
Qed.

(** ** Ingestion *)

Lemma AddEarthquake_duplicate rd E em :
  is_Some (earthquakes em !! ID E) → AddEarthquake rd E em = (em, false).
Proof. intros [old Hold]. unfold AddEarthquake. by rewrite Hold. Qed.

Lemma AddEarthquake_again rd E em :
  AddEarthquake rd E (AddEarthquake rd E em).1 = ((AddEarthquake rd E em).1, false).
Proof.
  unfold AddEarthquake at 2 3.
  destruct (earthquakes em !! ID E) eqn:Hlook.
  - apply AddEarthquake_duplicate. cbn [fst]. by rewrite Hlook.
  - destruct (notCategorized (CategorizeEarthquake rd E)) eqn:Hcat.
    + cbn [fst]. unfold AddEarthquake. by rewrite Hlook, Hcat.
    + apply AddEarthquake_duplicate. cbn [fst earthquakes].
      rewrite CategorizeEarthquake_ID, lookup_insert_eq. by eexists.
Qed.

(** C1: ingesting the same event twice accepts it at most once.  The
    second [AddEarthquake] returns false and leaves the manager as the
    first call left it: same index, same count, same pending
    notifications; and an event whose identifier is already in the index
    is turned down with the manager untouched. *)
Theorem AddEarthquake_idempotent rd E em :
  let first := AddEarthquake rd E em in
  let second := AddEarthquake rd E first.1 in
  second.2 = false
  ∧ second.1 = first.1
  ∧ earthquakes second.1 = earthquakes first.1
  ∧ GetCount second.1 = GetCount first.1
  ∧ newEarthquakeChan second.1 = newEarthquakeChan first.1
  ∧ ¬ (first.2 = true ∧ second.2 = true)
  ∧ (is_Some (earthquakes em !! ID E) → AddEarthquake rd E em = (em, false)).
Proof.
  cbv zeta. rewrite AddEarthquake_again. cbn [fst snd].
  repeat split; try reflexivity.
  - intros [_ ?]. discriminate.
  - apply AddEarthquake_duplicate.
Qed.

(** Witness of [AddEarthquake_idempotent]: ["a"] offered to a manager that
    holds it. *)
Lemma AddEarthquake_idempotent_witness :
  AddEarthquake (Some overlapping) (event "a" 5 5 0) holding_a = (holding_a, false).
Proof.
  apply (AddEarthquake_idempotent (Some overlapping) (event "a" 5 5 0) holding_a).
  vm_compute. eexists. reflexivity.
Defined.

Lemma labels_of_coordinates rd eq eq' :
  Latitude eq = Latitude eq' → Longitude eq = Longitude eq' →
  Oceano (CategorizeEarthquake (Some rd) eq) = Oceano (CategorizeEarthquake (Some rd) eq')
  ∧ OceanoRegion (CategorizeEarthquake (Some rd) eq)
    = OceanoRegion (CategorizeEarthquake (Some rd) eq').
Proof.
  intros Hlat Hlon. rewrite !GeometryProofs.CategorizeEarthquake_classify.
  cbv zeta. rewrite Hlat, Hlon. split; reflexivity.
Qed.

Lemma unclassified_notCategorized rd E :
  unclassified rd E → notCategorized (CategorizeEarthquake rd E) = true.
Proof.
  intros [Ho _]. unfold notCategorized. rewrite Ho. reflexivity.
Qed.

Lemma AddEarthquake_unclassified rd E em :
  unclassified rd E → AddEarthquake rd E em = (em, false).
Proof.
  intros Hu. unfold AddEarthquake.
  destruct (earthquakes em !! ID E); [reflexivity|].
  by rewrite unclassified_notCategorized.
Qed.

(** C2: in every state reached from the empty manager by [AddEarthquake],
    [AddEarthquakes], [CleanOld] (and the channel reader) every entry of the
    index has both labels non-empty and different from ["Uncategorized"];
    an event that classifies as unclassified is turned down by
    [AddEarthquake] with the manager, hence [GetCount], unchanged, and
    neither it nor, under a loaded configuration, any record at its
    coordinates is in the result of a query. *)
Theorem label_retention rd em :
  reachable rd em →
  (∀ id eq, earthquakes em !! id = Some eq → labeled eq)
  ∧ (∀ E, unclassified rd E →
       AddEarthquake rd E em = (em, false)
       ∧ GetCount (AddEarthquake rd E em).1 = GetCount em
       ∧ ∀ q, (E ∉ runQuery q em)
              ∧ (CategorizeEarthquake rd E ∉ runQuery q em)
              ∧ (is_Some rd → ∀ r, r ∈ runQuery q em →
                   ¬ (Latitude r = Latitude E ∧ Longitude r = Longitude E))).
Proof.
  intros Hreach. pose proof (reachable_store_inv rd em Hreach) as Hinv.
  split; [intros id eq Hid; by apply (Hinv id eq)|].
  intros E Hu. rewrite AddEarthquake_unclassified by exact Hu.
  split; [reflexivity|]. split; [reflexivity|].
  assert (Hno : ∀ q r, r ∈ runQuery q em → ¬ unclassified rd r).
  { intros q r Hin [Ho _]. apply runQuery_stored in Hin as [id Hid].
    destruct (Hinv id r Hid) as (_ & Hlab & Hcat).
    rewrite Hcat in Ho. by destruct Hlab as (_ & Hne & _). }
  intros q. split; [|split].
  - intros Hin. by apply (Hno q E).
  - intros Hin. apply (Hno q _ Hin). unfold unclassified.
    by rewrite CategorizeEarthquake_idem.
  - intros [rd' ->] r Hin [Hlat Hlon]. apply (Hno q r Hin).
    destruct (labels_of_coordinates rd' r E Hlat Hlon) as [Ho Hr].
    unfold unclassified. rewrite Ho, Hr. exact Hu.
Qed.

(** Witness of [label_retention]: the manager holding ["a"] and an event at
    (15,15), outside the only polygon. *)
Lemma label_retention_witness :
  AddEarthquake (Some overlapping) (event "b" 15 15 0) holding_a = (holding_a, false).
Proof.
  apply (label_retention (Some overlapping) holding_a).
  - apply reach_add, reach_new.
  - split; vm_compute; reflexivity.
Defined.

Lemma AddEarthquake_new rd E em :
  earthquakes em !! ID E = None →
  notCategorized (CategorizeEarthquake rd E) = false →
  (AddEarthquake rd E em).2 = true
  ∧ earthquakes (AddEarthquake rd E em).1
    = <[ID E := CategorizeEarthquake rd E]> (earthquakes em).
Proof.
  intros Hnew Hcat. unfold AddEarthquake. rewrite Hnew, Hcat.
  cbn [fst snd earthquakes]. by rewrite CategorizeEarthquake_ID.
Qed.

(** C6: a new identifier with labels from the classifier is stored and
    [AddEarthquake] returns true whatever the state of the notification
    channel: with room the record is queued, with a full buffer the
    channel is left as it is; the function always returns. *)
Theorem AddEarthquake_accepts_when_full rd E em :
  earthquakes em !! ID E = None →
  notCategorized (CategorizeEarthquake rd E) = false →
  (AddEarthquake rd E em).2 = true
  ∧ earthquakes (AddEarthquake rd E em).1
    = <[ID E := CategorizeEarthquake rd E]> (earthquakes em)
  ∧ earthquakes (AddEarthquake rd E em).1 !! ID E = Some (CategorizeEarthquake rd E)
  ∧ ((length (newEarthquakeChan em) < newEarthquakeChanCap)%nat →
     newEarthquakeChan (AddEarthquake rd E em).1
     = (newEarthquakeChan em ++ [CategorizeEarthquake rd E])%list)
  ∧ ((newEarthquakeChanCap ≤ length (newEarthquakeChan em))%nat →
     newEarthquakeChan (AddEarthquake rd E em).1 = newEarthquakeChan em).
Proof.
  intros Hnew Hcat. unfold AddEarthquake. rewrite Hnew, Hcat.
  cbn [fst snd earthquakes newEarthquakeChan]. rewrite CategorizeEarthquake_ID.
  split; [reflexivity|]. split; [reflexivity|].
  split; [apply lookup_insert_eq|]. unfold try_send. split; intros Hlen.
  - apply Nat.ltb_lt in Hlen. by rewrite Hlen.
  - apply Nat.ltb_ge in Hlen. by rewrite Hlen.
Qed.

(** Witness of [AddEarthquake_accepts_when_full]: a new event at (5,5)
    offered while the channel holds 100 notifications. *)
Lemma AddEarthquake_accepts_when_full_witness :
  (AddEarthquake (Some overlapping) (event "c" 5 5 0) holding_a_full).2 = true
  ∧ newEarthquakeChan (AddEarthquake (Some overlapping) (event "c" 5 5 0) holding_a_full).1
    = newEarthquakeChan holding_a_full.
Proof.
  destruct (AddEarthquake_accepts_when_full (Some overlapping) (event "c" 5 5 0)
              holding_a_full) as (Hacc & _ & _ & _ & Hfull).
  - vm_compute. reflexivity.
  - vm_compute. reflexivity.
  - split; [exact Hacc|]. apply Hfull. vm_compute. lia.
Defined.

(** At the least [int64] duration the negation wraps: the cutoff lies
    [2^63] nanoseconds before [now], not after it, and the two events of
    the fixture, both before [now], are kept. *)
Remark CleanOld_least_duration :
  CleanOld_cutoff (100 * day) (leastDuration holding_old_and_recent)
  = (100 * day - 2 ^ 63)%Z
  ∧ CleanOld (100 * day) (leastDuration holding_old_and_recent)
    = (leastDuration holding_old_and_recent, 0%Z).
Proof. split; vm_compute; reflexivity. Qed.

(** C7: for [maxAge] any [int64] duration but the least (whose negation
    wraps), [CleanOld] removes exactly the entries whose time is before
    [now - maxAge] and keeps every other entry as it was; the number it
    returns is the number of entries removed; with [maxAge] of 7 days an
    event stamped [now] minus 8 days goes and one stamped [now] minus 6
    days stays. *)
Theorem CleanOld_correct now em :
  (- 2 ^ 63 < maxAge em < 2 ^ 63)%Z →
  (∀ id, earthquakes (CleanOld now em).1 !! id =
         match earthquakes em !! id with
         | Some eq => if (Time eq <? now - maxAge em)%Z then None else Some eq
         | None => None
         end)
  ∧ (CleanOld now em).2
    = (Z.of_nat (size (earthquakes em))
       - Z.of_nat (size (earthquakes (CleanOld now em).1)))%Z
  ∧ (CleanOld now em).2
    = Z.of_nat (length (List.filter (λ eq, (Time eq <? now - maxAge em)%Z)
                          (range_values em)))
  ∧ maxAge (CleanOld now em).1 = maxAge em
  ∧ newEarthquakeChan (CleanOld now em).1 = newEarthquakeChan em
  ∧ (maxAge em = (7 * day)%Z →
     ∀ id eq, earthquakes em !! id = Some eq →
       (Time eq = (now - 8 * day)%Z → earthquakes (CleanOld now em).1 !! id = None)
       ∧ (Time eq = (now - 6 * day)%Z →
          earthquakes (CleanOld now em).1 !! id = Some eq)).
Proof.
  intros Hbound. rewrite <- (CleanOld_cutoff_exact now em Hbound).
  split; [apply CleanOld_lookup|].
  split; [pose proof (CleanOld_size now em); lia|].
  split; [apply CleanOld_removed|].
  split; [apply CleanOld_chan|]. split; [apply CleanOld_chan|].
  intros Hage id eq Hid.
  rewrite CleanOld_lookup, Hid, (CleanOld_cutoff_exact now em Hbound), Hage.
  unfold Before, day.
  split; intros ->.
  - assert (H : (now - 8 * (24 * 3600 * 1000000000)
                 <? now - 7 * (24 * 3600 * 1000000000))%Z = true)
      by (apply Z.ltb_lt; lia).
    by rewrite H.
  - assert (H : (now - 6 * (24 * 3600 * 1000000000)
                 <? now - 7 * (24 * 3600 * 1000000000))%Z = false)
      by (apply Z.ltb_ge; lia).
    by rewrite H.
Qed.

(** Witness of [CleanOld_correct]: cleaning at day 100. *)
Lemma CleanOld_correct_witness :
  earthquakes (CleanOld (100 * day) holding_old_and_recent).1 !! "old" = None
  ∧ earthquakes (CleanOld (100 * day) holding_old_and_recent).1 !! "recent"
    = Some sixDaysOld.
Proof.
  destruct (CleanOld_correct (100 * day) holding_old_and_recent)
    as (_ & _ & _ & _ & _ & Hweek); [vm_compute; by split|].
  split.
  - apply (Hweek eq_refl "old" eightDaysOld); reflexivity.
  - apply (Hweek eq_refl "recent" sixDaysOld); reflexivity.
Defined.

(** ** Queries *)

Lemma filter_all {A} (f : A → bool) l :
  (∀ x, x ∈ l → f x = true) → List.filter f l = l.
Proof.
  induction l as [|x l IH]; intros Hall; [done|]. simpl.
  rewrite (Hall x) by left. f_equal. apply IH. intros y Hy. apply Hall. by right.
Qed.

(** A list in descending order that is a permutation of a list in strictly
    descending order is that list. *)
Lemma descending_unique (L' : list Earthquake) : ∀ L,
  L ≡ₚ L' →
  timeDescending L →
  StronglySorted (λ a b, (Time b < Time a)%Z) L' →
  L = L'.
Proof.
  induction L' as [|b L1' IH]; intros L Hperm Hsorted Hstrict.
  - by apply Permutation_nil_r in Hperm.
  - destruct L as [|a L1]; [by apply Permutation_nil_cons in Hperm|].
    apply Sorted_StronglySorted in Hsorted; [|intros x y z; simpl; lia].
    apply StronglySorted_inv in Hsorted as [Hs1 Ha].
    apply StronglySorted_inv in Hstrict as [Hs1' Hb].
    rewrite Forall_forall in Ha, Hb.
    assert (a = b) as ->.
    { assert (Hin : a ∈ b :: L1') by (rewrite <- Hperm; left).
      apply elem_of_cons in Hin as [Hab|Hin]; [exact Hab|].
      assert (Hin' : b ∈ a :: L1) by (rewrite Hperm; left).
      apply elem_of_cons in Hin' as [Hba|Hin']; [done|].
      specialize (Hb a Hin). specialize (Ha b Hin'). lia. }
    f_equal. apply IH; [by apply Permutation_cons_inv in Hperm| |exact Hs1'].
    by apply StronglySorted_Sorted.
Qed.

(** Adding events with new, pairwise different identifiers that the
    classifier labels stores the classified copy of each. *)
Lemma AddEarthquakes_loop_values rd l : ∀ em acc,
  NoDup (ID <$> l) →
  (∀ e, e ∈ l → earthquakes em !! ID e = None
                ∧ notCategorized (CategorizeEarthquake rd e) = false) →
  range_values (AddEarthquakes_loop rd l em acc).1
  ≡ₚ (CategorizeEarthquake rd <$> l) ++ range_values em.
Proof.
  induction l as [|e l IH]; intros em acc Hnd Hnew; [done|].
  cbn [AddEarthquakes_loop]. cbn [fmap list_fmap] in Hnd.
  apply NoDup_cons in Hnd as [Hid Hnd].
  destruct (Hnew e) as [He Hcat]; [left|].
  destruct (AddEarthquake_new rd e em He Hcat) as [Hadd Hmap].
  destruct (AddEarthquake rd e em) as [em' added]. cbn [fst snd] in *.
  rewrite IH; [|exact Hnd|].
  - unfold range_values at 1. rewrite Hmap.
    rewrite map_to_list_insert by exact He.
    cbn [fmap list_fmap snd]. fold (range_values em).
    by rewrite <- Permutation_middle.
  - intros e' He'. destruct (Hnew e') as [Hnone Hcat']; [by right|].
    split; [|exact Hcat']. rewrite Hmap, lookup_insert_ne; [exact Hnone|].
    intros Heq. apply Hid. rewrite Heq. apply list_elem_of_fmap. by exists e'.
Qed.

(** C8: in every reachable state each of the four queries returns entries
    of the index only, all of them labeled, most recent first; [GetAll]
    filters on the labels itself, whatever the index holds; and three
    acceptable events with times T1 < T2 < T3 added to a new manager in any
    order come back from [GetAll] as T3, T2, T1. *)
Theorem queries_sorted_labeled rd em :
  reachable rd em →
  (∀ q, timeDescending (runQuery q em)
        ∧ ∀ eq, eq ∈ runQuery q em →
            labeled eq ∧ ∃ id, earthquakes em !! id = Some eq)
  ∧ (∀ em' eq, eq ∈ GetAll em' → labeled eq)
  ∧ (∀ maxAge e1 e2 e3 order,
       order ≡ₚ [e1; e2; e3] →
       NoDup [ID e1; ID e2; ID e3] →
       (∀ e, e ∈ [e1; e2; e3] → notCategorized (CategorizeEarthquake rd e) = false) →
       (Time e1 < Time e2 < Time e3)%Z →
       GetAll (AddEarthquakes rd order (NewEarthquakeManager maxAge)).1
       = [CategorizeEarthquake rd e3; CategorizeEarthquake rd e2;
          CategorizeEarthquake rd e1]).
Proof.
  intros Hreach. pose proof (reachable_store_inv rd em Hreach) as Hinv.
  split; [|split].
  - intros q. split; [apply runQuery_sorted|]. intros eq Hin.
    destruct (runQuery_stored q em eq Hin) as [id Hid].
    split; [by apply (Hinv id eq)|by exists id].
  - intros em' eq Hin. unfold GetAll in Hin.
    apply elem_of_sort_Slice, list_elem_of_In, filter_In in Hin as [_ Hcat].
    by apply isCategorized_labeled.
  - intros age e1 e2 e3 order Hperm Hnd Hcat Htime.
    assert (Hvals : range_values (AddEarthquakes rd order (NewEarthquakeManager age)).1
                    ≡ₚ CategorizeEarthquake rd <$> [e1; e2; e3]).
    { unfold AddEarthquakes. rewrite AddEarthquakes_loop_values.
      - unfold range_values at 1. cbn [NewEarthquakeManager earthquakes].
        rewrite map_to_list_empty, app_nil_r. by rewrite Hperm.
      - rewrite Hperm. exact Hnd.
      - intros e He. split; [apply lookup_empty|]. apply Hcat. by rewrite <- Hperm. }
    apply descending_unique.
    + unfold GetAll. rewrite sort_Slice_perm, filter_all.
      * rewrite Hvals. cbn [fmap list_fmap].
        exact (Permutation_rev [_; _; _]).
      * intros x Hx. rewrite Hvals in Hx.
        apply list_elem_of_fmap in Hx as [e [-> He]].
        specialize (Hcat e He). rewrite notCategorized_isCategorized in Hcat.
        by apply negb_false_iff.
    + apply sort_byTimeDesc_sorted.
    + repeat constructor; rewrite !CategorizeEarthquake_Time; lia.
Qed.

(** Witness of [queries_sorted_labeled]: the events inserted in the order
    T2, T3, T1. *)
Lemma queries_sorted_labeled_witness :
  GetAll (AddEarthquakes (Some overlapping) [t2; t3; t1]
            (NewEarthquakeManager (7 * day))).1
  = [CategorizeEarthquake (Some overlapping) t3;
     CategorizeEarthquake (Some overlapping) t2;
     CategorizeEarthquake (Some overlapping) t1].
Proof.
  destruct (queries_sorted_labeled (Some overlapping) holding_a) as (_ & _ & Hthree).
  - apply reach_add, reach_new.
  - apply (Hthree (7 * day)%Z t1 t2 t3).
    + exact (perm_trans (perm_skip t2 (perm_swap t1 t3 [])) (perm_swap t1 t2 [t3])).
    + apply (bool_decide_unpack (NoDup [ID t1; ID t2; ID t3])). vm_compute. exact I.
    + intros e He. repeat (apply elem_of_cons in He as [->|He]);
        [vm_compute; reflexivity..|by apply elem_of_nil in He].
    + vm_compute. split; reflexivity.
Defined.

(** ** A configuration that was never loaded *)

(** C5, as the code has it: with no configuration loaded
    [CategorizeEarthquake] returns the record as it was given, labels
    included, for every input; a record that arrives with an empty or
    ["Uncategorized"] label therefore keeps it and [AddEarthquake] turns it
    down. *)
Theorem CategorizeEarthquake_unloaded eq em :
  CategorizeEarthquake None eq = eq
  ∧ (notCategorized eq = true → AddEarthquake None eq em = (em, false)).
Proof.
  split; [reflexivity|]. intros Hcat. unfold AddEarthquake.
  destruct (earthquakes em !! ID eq); [reflexivity|].
  cbn [CategorizeEarthquake]. by rewrite Hcat.
Qed.

(** Witness of [CategorizeEarthquake_unloaded]: a fetched event, its labels
    empty, under an identifier the manager does not hold, so that the
    duplicate test is passed and the label test is what turns it down. *)
Lemma CategorizeEarthquake_unloaded_witness :
  earthquakes holding_a !! ID (event "b" 5 5 0) = None
  ∧ CategorizeEarthquake None (event "b" 5 5 0) = event "b" 5 5 0
  ∧ AddEarthquake None (event "b" 5 5 0) holding_a = (holding_a, false).
Proof.
  split; [vm_compute; reflexivity|].
  destruct (CategorizeEarthquake_unloaded (event "b" 5 5 0) holding_a) as [Hsame Hdown].
  split; [exact Hsame|]. apply Hdown. reflexivity.
Defined.

(** C5 as stated fails: with no configuration loaded the labels of a
    fetched event stay empty, they do not become ["Uncategorized"]. *)
Lemma CategorizeEarthquake_unloaded_counterexample :
  ¬ (Oceano (CategorizeEarthquake None (event "a" 5 5 0)) = "Uncategorized"
     ∧ OceanoRegion (CategorizeEarthquake None (event "a" 5 5 0)) = "Uncategorized").
Proof. intros [H _]. vm_compute in H. discriminate H. Qed.

End ManagerProofs.

(* ===================================================================== *)
(** * Properties of the hub *)
(* ===================================================================== *)

Module WebsocketProofs.
Import Websocket.

Lemma Run_broadcast_client_open m h c ch :
  send h !! c = Some ch → closed ch = false →
  Run_broadcast_client m h c =
    Some (if (length (buf ch) <? sendCap)%nat
          then {| clients := clients h; send := <[c := queued m ch]> (send h) |}
          else {| clients := clients h ∖ {[c]};
                  send := <[c := closedQueue ch]> (send h) |}).
Proof.
  intros Hc Hopen. unfold Run_broadcast_client, chan_try_send, chan_close.
  rewrite Hc. cbn [mbind option_bind]. rewrite Hopen.
  destruct (length (buf ch) <? sendCap)%nat; reflexivity.
Qed.

(** The loop over the sessions [cs], all with an open queue: it ends
    without a panic, leaves the sessions outside [cs] alone, queues the
    payload where there is room and closes and drops the others. *)
Lemma Run_broadcast_loop_open m cs : ∀ h,
  NoDup cs →
  (∀ c, c ∈ cs → ∃ ch, send h !! c = Some ch ∧ closed ch = false) →
  ∃ h', Run_broadcast_loop m cs h = Some h'
    ∧ (∀ c, c ∉ cs → send h' !! c = send h !! c ∧ (c ∈ clients h' ↔ c ∈ clients h))
    ∧ (∀ c ch, c ∈ cs → send h !! c = Some ch →
         if (length (buf ch) <? sendCap)%nat
         then (c ∈ clients h' ↔ c ∈ clients h) ∧ send h' !! c = Some (queued m ch)
         else (c ∉ clients h') ∧ send h' !! c = Some (closedQueue ch)).
Proof.
  induction cs as [|c cs IH]; intros h Hnd Hopen.
  - exists h. split; [reflexivity|]. split; [done|].
    intros c ch Hc. by apply elem_of_nil in Hc.
  - apply NoDup_cons in Hnd as [Hc Hnd].
    destruct (Hopen c) as (ch & Hch & Hchopen); [left|].
    cbn [Run_broadcast_loop]. rewrite (Run_broadcast_client_open m h c ch Hch Hchopen).
    cbn [mbind option_bind].
    set (h1 := if (length (buf ch) <? sendCap)%nat then _ else _).
    assert (Hsend1 : ∀ c', c' ≠ c → send h1 !! c' = send h !! c').
    { intros c' Hne. subst h1. destruct (length (buf ch) <? sendCap)%nat;
        cbn [send]; by rewrite lookup_insert_ne. }
    assert (Hcl1 : ∀ c', c' ≠ c → c' ∈ clients h1 ↔ c' ∈ clients h).
    { intros c' Hne. subst h1. destruct (length (buf ch) <? sendCap)%nat;
        cbn [clients]; [done|].
      rewrite elem_of_difference, elem_of_singleton. tauto. }
    destruct (IH h1 Hnd) as (h' & Hrun & Hout & Hin).
    { intros c' Hc'. rewrite Hsend1 by (intros ->; done). apply Hopen. by right. }
    exists h'. split; [exact Hrun|]. split.
    + intros c' Hc'. apply not_elem_of_cons in Hc' as [Hne Hc'].
      destruct (Hout c' Hc') as [Hs Hcl]. rewrite Hs, Hcl, Hsend1, Hcl1 by done. done.
    + intros c' ch' Hc' Hch'. apply elem_of_cons in Hc' as [->|Hc'].
      * rewrite Hch in Hch'. injection Hch' as <-.
        destruct (Hout c Hc) as [Hs Hcl]. subst h1.
        destruct (length (buf ch) <? sendCap)%nat; cbn [send clients] in Hs, Hcl;
          rewrite lookup_insert_eq in Hs; (split; [|exact Hs]); [exact Hcl|].
        rewrite Hcl, elem_of_difference, elem_of_singleton. tauto.
      * assert (c' ≠ c) as Hne by (intros ->; done).
        specialize (Hin c' ch' Hc'). rewrite Hsend1 in Hin by done.
        specialize (Hin Hch'). destruct (length (buf ch') <? sendCap)%nat.
        -- by rewrite <- Hcl1.
        -- exact Hin.
Qed.

Lemma Run_broadcast_open m h :
  active_open h →
  ∃ h', Run_broadcast m h = Some h'
    ∧ (∀ c ch, c ∈ clients h → send h !! c = Some ch →
         (length (buf ch) < sendCap)%nat →
         c ∈ clients h' ∧ send h' !! c = Some (queued m ch))
    ∧ (∀ c ch, c ∈ clients h → send h !! c = Some ch →
         (sendCap ≤ length (buf ch))%nat →
         (c ∉ clients h') ∧ send h' !! c = Some (closedQueue ch))
    ∧ (∀ c, c ∉ clients h → (c ∉ clients h') ∧ send h' !! c = send h !! c)
    ∧ active_open h'.
Proof.
  intros Hopen. unfold Run_broadcast.
  destruct (Run_broadcast_loop_open m (elements (clients h)) h) as (h' & Hrun & Hout & Hin).
  { apply NoDup_elements. }
  { intros c Hc. apply Hopen. by apply elem_of_elements. }
  exists h'. split; [exact Hrun|].
  assert (Hroom : ∀ c ch, c ∈ clients h → send h !! c = Some ch →
            (length (buf ch) < sendCap)%nat →
            c ∈ clients h' ∧ send h' !! c = Some (queued m ch)).
  { intros c ch Hc Hch Hlen. specialize (Hin c ch). rewrite elem_of_elements in Hin.
    specialize (Hin Hc Hch). apply Nat.ltb_lt in Hlen. rewrite Hlen in Hin.
    destruct Hin as [Hcl Hs]. by rewrite Hcl. }
  assert (Hfull : ∀ c ch, c ∈ clients h → send h !! c = Some ch →
            (sendCap ≤ length (buf ch))%nat →
            (c ∉ clients h') ∧ send h' !! c = Some (closedQueue ch)).
  { intros c ch Hc Hch Hlen. specialize (Hin c ch). rewrite elem_of_elements in Hin.
    specialize (Hin Hc Hch). apply Nat.ltb_ge in Hlen. by rewrite Hlen in Hin. }
  assert (Hother : ∀ c, c ∉ clients h → (c ∉ clients h') ∧ send h' !! c = send h !! c).
  { intros c Hc. destruct (Hout c) as [Hs Hcl]; [by rewrite elem_of_elements|].
    by rewrite Hcl. }
  repeat split; try assumption; try (by eapply Hroom); try (by eapply Hfull);
    try (by eapply Hother).
  intros c Hc. destruct (decide (c ∈ clients h)) as [Hc0|Hc0].
  - destruct (Hopen c Hc0) as (ch & Hch & Hchopen).
    destruct (decide (length (buf ch) < sendCap)%nat) as [Hlen|Hlen].
    + exists (queued m ch). split; [|done]. by apply (Hroom c ch).
    + destruct (Hfull c ch Hc0 Hch) as [Hnot _]; [lia|done].
  - by destruct (Hother c Hc0).
Qed.

(** ** The active sessions of a running hub have open queues *)

Lemma ServeWs_open h h' : active_open h → ServeWs h = Some h' → active_open h'.
Proof.
  intros Hopen [= <-] c. cbn [clients send].
  pose proof (is_fresh (dom (send h))) as Hfresh.
  rewrite elem_of_union, elem_of_singleton. intros [->|Hc].
  - exists make_chan. by rewrite lookup_insert_eq.
  - destruct (Hopen c Hc) as (ch & Hch & Hchopen). exists ch. split; [|done].
    rewrite lookup_insert_ne; [done|]. intros <-.
    apply Hfresh, elem_of_dom. by exists ch.
Qed.

Lemma Run_unregister_open c h :
  active_open h → ∃ h', Run_unregister c h = Some h' ∧ active_open h'.
Proof.
  intros Hopen. unfold Run_unregister. case_decide as Hc; [|by exists h].
  destruct (Hopen c Hc) as (ch & Hch & Hchopen).
  rewrite Hch. cbn [mbind option_bind]. unfold chan_close. rewrite Hchopen.
  cbn [mbind option_bind]. eexists. split; [reflexivity|].
  intros c'. cbn [clients send]. rewrite elem_of_difference, elem_of_singleton.
  intros [Hc' Hne]. rewrite lookup_insert_ne by done. by apply Hopen.
Qed.

Lemma writePump_receive_open c h : active_open h → active_open (writePump_receive c h).
Proof.
  intros Hopen c' Hc'. cbn [writePump_receive clients send] in *.
  destruct (Hopen c' Hc') as (ch & Hch & Hchopen).
  destruct (decide (c = c')) as [->|Hne].
  - eexists. rewrite lookup_alter_eq, Hch. split; [reflexivity|exact Hchopen].
  - exists ch. by rewrite lookup_alter_ne.
Qed.

Lemma reachable_active_open h : reachable h → active_open h.
Proof.
  induction 1 as [|h h' _ IH Hs|c h h' _ IH _ Hu|m h h' _ IH Hb|c h _ IH].
  - intros c Hc. cbn in Hc. by apply not_elem_of_empty in Hc.
  - by eapply ServeWs_open.
  - destruct (Run_unregister_open c h IH) as (h'' & Hrun & Hopen).
    rewrite Hu in Hrun. by injection Hrun as ->.
  - destruct (Run_broadcast_open m h IH) as (h'' & Hrun & _ & _ & _ & Hopen).
    rewrite Hb in Hrun. by injection Hrun as ->.
  - by apply writePump_receive_open.
Qed.

(** C9: a broadcast over sessions with open queues (as the active sessions
    of every running hub are) ends without a panic.  The envelope
    [{type: "new_earthquake", data: eq}] is marshalled once; every active
    session with room in its queue stays active and has that payload
    appended to its queue; every active session whose queue is full is
    removed from the active set and its queue is closed, nothing queued;
    nothing else changes, and a marshalling failure changes nothing. *)
Theorem broadcast_isolates_full_sessions json_Marshal eq h :
  active_open h →
  ∃ h', broadcast json_Marshal eq h = Some h'
    ∧ active_open h'
    ∧ match json_Marshal {| MsgType := "new_earthquake"; Data := eq |} with
      | None => h' = h
      | Some payload =>
          (∀ c ch, c ∈ clients h → send h !! c = Some ch →
             (length (buf ch) < sendCap)%nat →
             c ∈ clients h'
             ∧ send h' !! c = Some {| buf := buf ch ++ [payload]; closed := false |})
          ∧ (∀ c ch, c ∈ clients h → send h !! c = Some ch →
               (sendCap ≤ length (buf ch))%nat →
               (c ∉ clients h')
               ∧ send h' !! c = Some {| buf := buf ch; closed := true |})
          ∧ (∀ c, c ∉ clients h → (c ∉ clients h') ∧ send h' !! c = send h !! c)
      end.
Proof.
  intros Hopen. unfold broadcast, BroadcastEarthquake.
  destruct (json_Marshal _) as [payload|]; [|by exists h].
  destruct (Run_broadcast_open payload h Hopen)
    as (h' & Hrun & Hroom & Hfull & Hother & Hopen').
  exists h'. repeat split; try assumption.
  - by eapply Hroom.
  - by eapply Hroom.
  - by eapply Hfull.
  - by eapply Hfull.
  - by eapply Hother.
  - by eapply Hother.
Qed.

Lemma threeSessions_open : active_open threeSessions.
Proof.
  intros c Hc. unfold threeSessions in *. cbn [clients send] in *.
  rewrite !elem_of_union, !elem_of_singleton in Hc.
  destruct Hc as [[->| ->]| ->]; eexists; (split; [reflexivity|reflexivity]).
Qed.

(** Witness of [broadcast_isolates_full_sessions]: three sessions, the
    second with a full queue; the other two receive the payload and only
    the second leaves the active set. *)
Lemma broadcast_isolates_full_sessions_witness :
  ∃ h', broadcast marshalID (event "a" 5 5 0) threeSessions = Some h'
    ∧ (1%nat ∈ clients h' ∧ (buf <$> send h' !! 1%nat) = Some [[Byte.x61]])
    ∧ (3%nat ∈ clients h' ∧ (buf <$> send h' !! 3%nat) = Some [[Byte.x61]])
    ∧ ((2%nat ∉ clients h') ∧ (closed <$> send h' !! 2%nat) = Some true).
Proof.
  destruct (broadcast_isolates_full_sessions marshalID (event "a" 5 5 0)
              threeSessions threeSessions_open) as (h' & Hrun & _ & H).
  cbn [marshalID] in H. destruct H as (Hroom & Hfull & _).
  exists h'. split; [exact Hrun|].
  assert (H1 : (1%nat : nat) ∈ clients threeSessions)
    by (apply (bool_decide_unpack _); vm_compute; exact I).
  assert (H2 : (2%nat : nat) ∈ clients threeSessions)
    by (apply (bool_decide_unpack _); vm_compute; exact I).
  assert (H3 : (3%nat : nat) ∈ clients threeSessions)
    by (apply (bool_decide_unpack _); vm_compute; exact I).
  split; [|split].
  - destruct (Hroom 1%nat make_chan H1 eq_refl) as [Hc Hs]; [vm_compute; lia|].
    split; [exact Hc|]. rewrite Hs. reflexivity.
  - destruct (Hroom 3%nat make_chan H3 eq_refl) as [Hc Hs]; [vm_compute; lia|].
    split; [exact Hc|]. rewrite Hs. reflexivity.
  - destruct (Hfull 2%nat _ H2 eq_refl) as [Hc Hs]; [vm_compute; lia|].
    split; [exact Hc|]. rewrite Hs. reflexivity.
Defined.

End WebsocketProofs.

(* ===================================================================== *)
(** * Further properties of the classifier *)
(* ===================================================================== *)

Module GeometryMore.
Import GeometrySpec.
Local Open Scope float_scope.
Local Open Scope list_scope.

(** ** The starting vertex *)

Lemma filter_length_perm {A} (f : A → bool) (l l' : list A) :
  l ≡ₚ l' → length (List.filter f l) = length (List.filter f l').
Proof.
  induction 1 as [|x l l' _ IH|x y l|l l' l'' _ IH1 _ IH2]; cbn [List.filter].
  - reflexivity.
  - destruct (f x); cbn [length]; by rewrite IH.
  - by destruct (f x), (f y).
  - by rewrite IH1.
Qed.

Lemma edges_rotate_one p (rest : Polygon) :
  edges (rest ++ [p]) ≡ₚ edges (p :: rest).
Proof.
  destruct rest as [|q r]; [reflexivity|].
  cbn [edges app]. change (zip (p :: q :: r) (q :: r ++ [p]))
    with ((p, q) :: zip (q :: r) (r ++ [p])).
  rewrite (app_comm_cons r [p] q).
  rewrite (zip_with_app pair (q :: r) [p] (r ++ [p]) [q])
    by (rewrite length_app; cbn [length]; lia).
  cbn [zip_with]. by rewrite <- Permutation_cons_append.
Qed.

Lemma PointInPolygon_rotate_one point p (rest : Polygon) :
  PointInPolygon point (rest ++ [p]) = PointInPolygon point (p :: rest).
Proof.
  rewrite !GeometryProofs.PointInPolygon_inside. unfold inside, intersectionCount.
  rewrite (filter_length_perm _ _ _ (edges_rotate_one p rest)).
  rewrite length_app. cbn [length]. by rewrite Nat.add_1_r.
Qed.

(** X1: the answer of [PointInPolygon] does not depend on the vertex the
    list starts from: a polygon and any cyclic rotation of it contain the
    same points. *)
Theorem PointInPolygon_rotation point (l1 l2 : Polygon) :
  PointInPolygon point (l2 ++ l1) = PointInPolygon point (l1 ++ l2).
Proof.
  revert l2. induction l1 as [|p l1 IH]; intros l2.
  - by rewrite app_nil_r.
  - rewrite (cons_middle p l2 l1), app_assoc, IH, app_assoc.
    apply PointInPolygon_rotate_one.
Qed.

(** ** The latitude band *)

Lemma edges_vertices polygon p1 p2 :
  (p1, p2) ∈ edges polygon → p1 ∈ polygon ∧ p2 ∈ polygon.
Proof.
  destruct polygon as [|p rest]; cbn [edges]; [by intros ?%elem_of_nil|].
  intros Hin. split; [by eapply elem_of_zip_l|].
  apply elem_of_zip_r in Hin. apply elem_of_app in Hin as [Hin|Hin%list_elem_of_singleton].
  - by right.
  - subst. by left.
Qed.

Lemma filter_none {A} (f : A → bool) l :
  (∀ x, x ∈ l → f x = false) → List.filter f l = [].
Proof.
  induction l as [|x l IH]; intros Hall; [done|]. cbn [List.filter].
  rewrite (Hall x) by left. apply IH. intros y Hy. apply Hall. by right.
Qed.

(** No edge counts: the point is outside. *)
Lemma PointInPolygon_no_edge point polygon :
  (∀ e, e ∈ edges polygon → rayIntersectsSegment point e.1 e.2 = false) →
  PointInPolygon point polygon = false.
Proof.
  intros Hnone. rewrite GeometryProofs.PointInPolygon_inside.
  unfold inside, intersectionCount. rewrite filter_none; [apply andb_false_r|].
  intros [p1 p2] He. rewrite <- GeometryProofs.rayIntersectsSegment_counts.
  by apply (Hnone (p1, p2)).
Qed.

Lemma PointInPolygon_one_side point polygon (b : bool) :
  (∀ v, v ∈ polygon → fgt (Lat v) (Lat point) = b) →
  PointInPolygon point polygon = false.
Proof.
  intros Hband. apply PointInPolygon_no_edge. intros [p1 p2] He.
  destruct (edges_vertices polygon p1 p2 He) as [H1 H2].
  unfold rayIntersectsSegment. cbn [fst snd].
  by rewrite (Hband p1 H1), (Hband p2 H2), eqb_reflx.
Qed.

(** X2: a point whose latitude is on one side of every vertex (every
    vertex strictly north of it, or none) is outside the polygon. *)
Theorem PointInPolygon_latitude_band point polygon (b : bool) :
  (∀ v, v ∈ polygon → fgt (Lat v) (Lat point) = b) →
  PointInPolygon point polygon = false.
Proof. apply PointInPolygon_one_side. Qed.

(** Witness of [PointInPolygon_latitude_band]: (15,5) lies north of the
    square. *)
Lemma PointInPolygon_latitude_band_witness :
  PointInPolygon {| Lat := 15; Lon := 5 |} square = false.
Proof.
  apply (PointInPolygon_latitude_band _ square false).
  intros v Hv. unfold square in Hv.
  repeat (apply elem_of_cons in Hv as [->|Hv]); try (vm_compute; reflexivity).
  by apply elem_of_nil in Hv.
Defined.

(** ** Coordinates that are not numbers *)

Lemma is_nan_Prim2SF x : is_nan x = true → Prim2SF x = S754_nan.
Proof.
  unfold is_nan. rewrite negb_true_iff, FloatAxioms.eqb_spec. unfold SFeqb.
  destruct (Prim2SF x) as [s|s| |s m e]; cbn [SFcompare]; try done.
  - by destruct s.
  - destruct s; by rewrite Z.compare_refl, Pos.compare_cont_refl.
Qed.

Lemma ltb_nan_l x y : is_nan x = true → (x <? y) = false.
Proof.
  intros Hx%is_nan_Prim2SF. rewrite FloatAxioms.ltb_spec, Hx. reflexivity.
Qed.

(** Outside every polygon of the configuration: unclassified. *)
Lemma CategorizeEarthquake_outside rd eq :
  (∀ polygon, polygon ∈ allPolygons rd →
     PointInPolygon {| Lat := Latitude eq; Lon := Longitude eq |} polygon = false) →
  CategorizeEarthquake (Some rd) eq
  = set_labels eq "Uncategorized"%string "Uncategorized"%string.
Proof.
  intros Hout. rewrite GeometryProofs.CategorizeEarthquake_classify. cbv zeta.
  assert (Hgroup : ∀ group, (∀ polygon, polygon ∈ group → polygon ∈ allPolygons rd) →
            insideAny {| Lat := Latitude eq; Lon := Longitude eq |} group = false).
  { intros group Hsub. unfold insideAny. apply not_true_is_false.
    intros (polygon & Hin & Htrue)%existsb_exists.
    rewrite Hout in Htrue; [done|]. by apply Hsub, list_elem_of_In. }
  unfold classify, decisionList.
  rewrite !Hout, !Hgroup; [reflexivity|..];
    unfold allPolygons; try intros polygon Hin;
    rewrite ?elem_of_app, ?elem_of_cons; tauto.
Qed.

(** X3: an event with a NaN latitude or longitude is inside no polygon;
    under any loaded configuration it is labelled unclassified and
    [AddEarthquake] turns it down. *)
Theorem nan_coordinates_unclassified rd eq em :
  is_nan (Latitude eq) || is_nan (Longitude eq) = true →
  (∀ polygon,
     PointInPolygon {| Lat := Latitude eq; Lon := Longitude eq |} polygon = false)
  ∧ CategorizeEarthquake (Some rd) eq
    = set_labels eq "Uncategorized"%string "Uncategorized"%string
  ∧ AddEarthquake (Some rd) eq em = (em, false).
Proof.
  intros Hnan.
  assert (Hout : ∀ polygon,
            PointInPolygon {| Lat := Latitude eq; Lon := Longitude eq |} polygon = false).
  { intros polygon. apply orb_true_iff in Hnan as [Hlat|Hlon].
    - apply (PointInPolygon_one_side _ polygon false).
      intros v _. unfold fgt. cbn [Lat]. by apply ltb_nan_l.
    - apply PointInPolygon_no_edge. intros [p1 p2] _.
      unfold rayIntersectsSegment. cbn [fst snd Lon].
      destruct (Bool.eqb _ _); [reflexivity|]. by apply ltb_nan_l. }
  assert (Hcat : CategorizeEarthquake (Some rd) eq
                 = set_labels eq "Uncategorized"%string "Uncategorized"%string)
    by (apply CategorizeEarthquake_outside; intros polygon _; apply Hout).
  split; [exact Hout|]. split; [exact Hcat|].
  unfold AddEarthquake. destruct (earthquakes em !! ID eq); [reflexivity|].
  by rewrite Hcat.
Qed.

(** Witness of [nan_coordinates_unclassified]: an event at (NaN, 5) offered
    with the overlapping fixture loaded. *)
Lemma nan_coordinates_unclassified_witness :
  AddEarthquake (Some overlapping) (event "n" nan 5 0) holding_a = (holding_a, false).
Proof.
  apply (nan_coordinates_unclassified overlapping (event "n" nan 5 0) holding_a).
  vm_compute. reflexivity.
Defined.

(** ** Degenerate configurations *)

(** X4: when no polygon of the loaded configuration has 3 points (as after
    loading a document with no polygon fields) every event is labelled
    unclassified, and [AddEarthquakes] accepts nothing and leaves the
    manager as it was. *)
Theorem degenerate_configuration rd :
  (∀ polygon, polygon ∈ allPolygons rd → (length polygon < 3)%nat) →
  (∀ eq, CategorizeEarthquake (Some rd) eq
         = set_labels eq "Uncategorized"%string "Uncategorized"%string)
  ∧ (∀ eqs em, AddEarthquakes (Some rd) eqs em = (em, [])).
Proof.
  intros Hshort.
  assert (Hcat : ∀ eq, CategorizeEarthquake (Some rd) eq
                       = set_labels eq "Uncategorized"%string "Uncategorized"%string).
  { intros eq. apply CategorizeEarthquake_outside. intros polygon Hin.
    unfold PointInPolygon. specialize (Hshort polygon Hin).
    apply Nat.ltb_lt in Hshort. by rewrite Hshort. }
  split; [exact Hcat|]. intros eqs em. unfold AddEarthquakes.
  induction eqs as [|eq eqs IH]; [reflexivity|]. cbn [AddEarthquakes_loop].
  assert (Hadd : AddEarthquake (Some rd) eq em = (em, false)).
  { unfold AddEarthquake. destruct (earthquakes em !! ID eq); [reflexivity|].
    by rewrite Hcat. }
  rewrite Hadd. exact IH.
Qed.

(** Witness of [degenerate_configuration]: the configuration with every
    field empty. *)
Lemma degenerate_configuration_witness :
  AddEarthquakes (Some emptyRegions) [t1; t2; t3] holding_a = (holding_a, []).
Proof.
  apply (degenerate_configuration emptyRegions).
  intros polygon Hin. unfold allPolygons, emptyRegions in Hin. cbn in Hin.
  repeat (apply elem_of_cons in Hin as [->|Hin]); try (cbn; lia).
  by apply elem_of_nil in Hin.
Defined.

(** With a loaded configuration a record gets labels that pass the test of
    the manager exactly when its point is inside some polygon. *)
Lemma classified_iff_inside rd eq :
  notCategorized (CategorizeEarthquake (Some rd) eq) = false
  ↔ ∃ polygon, polygon ∈ allPolygons rd
      ∧ PointInPolygon {| Lat := Latitude eq; Lon := Longitude eq |} polygon = true.
Proof.
  set (point := {| Lat := Latitude eq; Lon := Longitude eq |}). split.
  - intros Hcat. destruct (existsb (PointInPolygon point) (allPolygons rd)) eqn:Hex.
    + apply existsb_exists in Hex as (polygon & Hin & Htrue).
      exists polygon. by rewrite list_elem_of_In.
    + rewrite CategorizeEarthquake_outside in Hcat; [done|].
      intros polygon Hin. apply not_true_is_false. intros Htrue.
      apply not_true_iff_false in Hex. apply Hex, existsb_exists.
      exists polygon. by rewrite <- list_elem_of_In.
  - intros (polygon & Hin & Htrue).
    assert (Hgroup : ∀ group, polygon ∈ group → insideAny point group = true).
    { intros group Hg. apply existsb_exists. exists polygon.
      by rewrite <- list_elem_of_In. }
    rewrite GeometryProofs.CategorizeEarthquake_classify. fold point.
    unfold classify, decisionList. cbn [firstMatch].
    unfold allPolygons in Hin. rewrite !elem_of_app, !elem_of_cons in Hin.
    destruct Hin as [[->|[->|[->|[->|Hin]]]]|[Hin|[Hin|[->|[->|Hin]]]]];
      try (by apply elem_of_nil in Hin);
      try rewrite Htrue; try rewrite (Hgroup _ Hin);
      rewrite ?orb_true_r, ?orb_true_l;
      repeat match goal with
             | |- context [if ?b then _ else _] => destruct b
             end; reflexivity.
Qed.

(** ** The labels the classifier writes *)

(** X5: with a loaded configuration [CategorizeEarthquake] changes the two
    labels and nothing else, ignores the labels the record arrives with,
    and writes one of seven pairs: Pacifico with local, regional or lejano,
    Caribe with lejano, regional or local, or Uncategorized twice. *)
Theorem CategorizeEarthquake_labels rd eq :
  let r := CategorizeEarthquake (Some rd) eq in
  r = set_labels eq (Oceano r) (OceanoRegion r)
  ∧ (∀ o g, CategorizeEarthquake (Some rd) (set_labels eq o g) = r)
  ∧ (Oceano r, OceanoRegion r)
    ∈ [("Pacifico", "local"); ("Pacifico", "regional"); ("Pacifico", "lejano");
       ("Caribe", "lejano"); ("Caribe", "regional"); ("Caribe", "local");
       ("Uncategorized", "Uncategorized")]%string.
Proof.
  cbv zeta. rewrite GeometryProofs.CategorizeEarthquake_classify. cbv zeta.
  split; [reflexivity|]. split.
  - intros o g. by rewrite GeometryProofs.CategorizeEarthquake_classify.
  - cbn [Oceano OceanoRegion set_labels]. unfold classify, decisionList.
    cbn [firstMatch].
    repeat match goal with
           | |- context [if ?b then _ else _] => destruct b
           end; cbn [fst snd]; set_solver.
Qed.

End GeometryMore.

(* ===================================================================== *)
(** * Further properties of the event manager *)
(* ===================================================================== *)

Module ManagerMore.
Import ManagerProofs.
Local Open Scope list_scope.

(** ** Batches *)

(** The two ways out of [AddEarthquake]. *)
Lemma AddEarthquake_cases rd e em :
  AddEarthquake rd e em = (em, false)
  ∨ (earthquakes em !! ID e = None
     ∧ notCategorized (CategorizeEarthquake rd e) = false
     ∧ AddEarthquake rd e em =
         ({| earthquakes := <[ID e := CategorizeEarthquake rd e]> (earthquakes em);
             maxAge := maxAge em;
             newEarthquakeChan :=
               try_send newEarthquakeChanCap (newEarthquakeChan em)
                 (CategorizeEarthquake rd e) |}, true)).
Proof.
  unfold AddEarthquake. destruct (earthquakes em !! ID e); [by left|].
  destruct (notCategorized _); [by left|]. right.
  by rewrite CategorizeEarthquake_ID.
Qed.

Lemma try_send_take {A} (cap : nat) (ch : list A) x :
  (length ch ≤ cap)%nat → try_send cap ch x = take cap (ch ++ [x]).
Proof.
  intros Hlen. unfold try_send. destruct (length ch <? cap)%nat eqn:Hroom.
  - apply Nat.ltb_lt in Hroom. rewrite take_ge; [done|].
    rewrite length_app. cbn [length]. lia.
  - apply Nat.ltb_ge in Hroom. rewrite take_app_le by lia. by rewrite take_ge.
Qed.

Lemma take_take_app {A} (n : nat) (a b : list A) :
  take n (take n a ++ b) = take n (a ++ b).
Proof.
  destruct (decide (length a ≤ n)%nat) as [Hle|Hgt].
  - by rewrite (take_ge a n).
  - rewrite (take_app_le a b n) by lia.
    rewrite take_app_le by (rewrite length_take; lia).
    rewrite take_take. f_equal. lia.
Qed.

(** What one run of the loop of [AddEarthquakes] does, in terms of the
    list [new] it appends to [newOnes]. *)
Lemma AddEarthquakes_loop_spec rd eqs : ∀ em acc,
  ∃ new,
    (AddEarthquakes_loop rd eqs em acc).2 = acc ++ new
    ∧ new `sublist_of` eqs
    ∧ NoDup (ID <$> new)
    ∧ earthquakes em ⊆ earthquakes (AddEarthquakes_loop rd eqs em acc).1
    ∧ size (earthquakes (AddEarthquakes_loop rd eqs em acc).1)
      = (size (earthquakes em) + length new)%nat
    ∧ Forall (λ e, earthquakes em !! ID e = None
                   ∧ notCategorized (CategorizeEarthquake rd e) = false
                   ∧ earthquakes (AddEarthquakes_loop rd eqs em acc).1 !! ID e
                     = Some (CategorizeEarthquake rd e)) new
    ∧ maxAge (AddEarthquakes_loop rd eqs em acc).1 = maxAge em
    ∧ ((length (newEarthquakeChan em) ≤ newEarthquakeChanCap)%nat →
       newEarthquakeChan (AddEarthquakes_loop rd eqs em acc).1
       = take newEarthquakeChanCap
           (newEarthquakeChan em ++ (CategorizeEarthquake rd <$> new))).
Proof.
  induction eqs as [|e eqs IH]; intros em acc.
  - exists []. cbn [AddEarthquakes_loop fst snd fmap list_fmap length].
    rewrite !app_nil_r. repeat split; try done; try constructor; try lia.
    intros Hlen. by rewrite take_ge.
  - cbn [AddEarthquakes_loop].
    destruct (AddEarthquake_cases rd e em) as [->|(Hnew & Hcat & ->)].
    + destruct (IH em acc) as (new & Hres & Hsub & Hnd & Hincl & Hsize & Hall & Hage & Hchan).
      exists new. repeat split; try assumption. by apply sublist_cons.
    + set (em1 := {| earthquakes := _ |}).
      destruct (IH em1 (acc ++ [e]))
        as (new & Hres & Hsub & Hnd & Hincl & Hsize & Hall & Hage & Hchan).
      assert (Hincl1 : earthquakes em ⊆ earthquakes em1)
        by (by apply insert_subseteq).
      assert (Hstored : earthquakes (AddEarthquakes_loop rd eqs em1 (acc ++ [e])).1
                          !! ID e = Some (CategorizeEarthquake rd e)).
      { eapply lookup_weaken; [|exact Hincl]. apply lookup_insert_eq. }
      exists (e :: new). split; [by rewrite Hres, <- app_assoc|].
      split; [by apply sublist_skip|]. split.
      { cbn [fmap list_fmap]. apply NoDup_cons. split; [|exact Hnd].
        intros (e' & Heq & Hin)%list_elem_of_fmap.
        rewrite Forall_forall in Hall. destruct (Hall e' Hin) as (Hnone & _).
        cbn [em1 earthquakes] in Hnone. by rewrite <- Heq, lookup_insert_eq in Hnone. }
      split; [by etrans|]. split.
      { rewrite Hsize. cbn [em1 earthquakes length].
        rewrite map_size_insert_None by exact Hnew. lia. }
      split.
      { constructor; [done|]. eapply Forall_impl; [exact Hall|].
        intros e' (Hnone & Hcat' & Hst). split; [|done].
        by eapply lookup_weaken_None. }
      split; [exact Hage|]. intros Hlen. rewrite Hchan.
      * cbn [em1 newEarthquakeChan fmap list_fmap].
        rewrite try_send_take by exact Hlen.
        rewrite take_take_app, <- app_assoc. reflexivity.
      * cbn [em1 newEarthquakeChan]. rewrite try_send_take by exact Hlen.
        rewrite length_take. lia.
Qed.

(** X6: [AddEarthquakes] returns, in input order, inputs with pairwise
    different identifiers none of which was in the index; the index grows
    by exactly that many entries, and holds the classified copy of each
    returned record under its identifier. *)
Theorem AddEarthquakes_result rd eqs em :
  (AddEarthquakes rd eqs em).2 `sublist_of` eqs
  ∧ NoDup (ID <$> (AddEarthquakes rd eqs em).2)
  ∧ size (earthquakes (AddEarthquakes rd eqs em).1)
    = (size (earthquakes em) + length (AddEarthquakes rd eqs em).2)%nat
  ∧ Forall (λ e, earthquakes em !! ID e = None
                 ∧ earthquakes (AddEarthquakes rd eqs em).1 !! ID e
                   = Some (CategorizeEarthquake rd e))
      (AddEarthquakes rd eqs em).2.
Proof.
  unfold AddEarthquakes.
  destruct (AddEarthquakes_loop_spec rd eqs em [])
    as (new & Hres & Hsub & Hnd & _ & Hsize & Hall & _).
  rewrite app_nil_l in Hres. rewrite Hres. repeat split; try assumption.
  eapply Forall_impl; [exact Hall|]. by intros e (? & _ & ?).
Qed.

(** X7: ingestion never rewrites or removes an entry: whatever is in the
    index before [AddEarthquake] or [AddEarthquakes] is in it afterwards,
    unchanged, also when an input carries the same identifier with other
    content; [maxAge] is not touched. *)
Theorem ingestion_keeps_entries rd eqs E em :
  earthquakes em ⊆ earthquakes (AddEarthquake rd E em).1
  ∧ earthquakes em ⊆ earthquakes (AddEarthquakes rd eqs em).1
  ∧ maxAge (AddEarthquake rd E em).1 = maxAge em
  ∧ maxAge (AddEarthquakes rd eqs em).1 = maxAge em.
Proof.
  unfold AddEarthquakes.
  destruct (AddEarthquakes_loop_spec rd eqs em [])
    as (new & _ & _ & _ & Hincl & _ & _ & Hage & _).
  destruct (AddEarthquake_cases rd E em) as [->|(Hnew & _ & ->)];
    cbn [fst earthquakes maxAge]; repeat split; try done.
  by apply insert_subseteq.
Qed.

(** ** Acceptance *)

(** X8: with a loaded configuration [AddEarthquake] returns true exactly
    when the identifier is not in the index and the point of the event is
    inside at least one polygon of the configuration; nothing else about
    the event matters. *)
Theorem AddEarthquake_accepted_iff rd E em :
  (AddEarthquake (Some rd) E em).2 = true
  ↔ earthquakes em !! ID E = None
    ∧ ∃ polygon, polygon ∈ GeometrySpec.allPolygons rd
        ∧ PointInPolygon {| Lat := Latitude E; Lon := Longitude E |} polygon = true.
Proof.
  rewrite <- GeometryMore.classified_iff_inside. unfold AddEarthquake.
  destruct (earthquakes em !! ID E); [cbn; intuition congruence|].
  destruct (notCategorized _); cbn; intuition congruence.
Qed.

(** Witness of [AddEarthquake_accepted_iff]: a new event at (5,5), inside
    the square. *)
Lemma AddEarthquake_accepted_iff_witness :
  (AddEarthquake (Some overlapping) (event "c" 5 5 0) holding_a).2 = true.
Proof.
  apply (AddEarthquake_accepted_iff overlapping (event "c" 5 5 0) holding_a).
  split; [reflexivity|]. exists square. split; [|vm_compute; reflexivity].
  unfold GeometrySpec.allPolygons, overlapping. cbn. set_solver.
Defined.

(** ** The notification channel *)

Lemma labeled_stored rd e :
  notCategorized (CategorizeEarthquake rd e) = false →
  labeled (CategorizeEarthquake rd e).
Proof.
  rewrite notCategorized_isCategorized, negb_false_iff. apply isCategorized_labeled.
Qed.

(** X9: in every reachable state the notification channel holds at most
    100 records, all of them labeled. *)
Theorem channel_bounded rd em :
  reachable rd em →
  (length (newEarthquakeChan em) ≤ newEarthquakeChanCap)%nat
  ∧ Forall labeled (newEarthquakeChan em).
Proof.
  induction 1 as [age|e em _ [IHlen IHlab]|eqs em _ [IHlen IHlab]
                 |now em _ [IHlen IHlab]|em _ [IHlen IHlab]].
  - cbn. split; [lia|constructor].
  - destruct (AddEarthquake_cases rd e em) as [->|(_ & Hcat & ->)]; [done|].
    cbn [fst newEarthquakeChan]. rewrite try_send_take by exact IHlen. split.
    + rewrite length_take. lia.
    + apply Forall_take, Forall_app. split; [exact IHlab|].
      constructor; [by apply labeled_stored|constructor].
  - unfold AddEarthquakes.
    destruct (AddEarthquakes_loop_spec rd eqs em [])
      as (new & _ & _ & _ & _ & _ & Hall & _ & Hchan).
    rewrite Hchan by exact IHlen. split.
    + rewrite length_take. lia.
    + apply Forall_take, Forall_app. split; [exact IHlab|].
      apply Forall_fmap. eapply Forall_impl; [exact Hall|].
      intros e (_ & Hcat & _). by apply labeled_stored.
  - by rewrite (proj1 (CleanOld_chan now em)).
  - cbn [receive newEarthquakeChan]. split.
    + destruct (newEarthquakeChan em); cbn [tail length] in *; lia.
    + destruct IHlab; [constructor|done].
Qed.

(** Witness of [channel_bounded]: the manager holding ["a"]. *)
Lemma channel_bounded_witness :
  (length (newEarthquakeChan holding_a) ≤ newEarthquakeChanCap)%nat
  ∧ Forall labeled (newEarthquakeChan holding_a).
Proof. apply (channel_bounded (Some overlapping)). apply reach_add, reach_new. Defined.

(** X10: [AddEarthquakes] queues the classified copies of the records it
    returns, in that order, behind what is pending, and drops what does not
    fit: the channel afterwards is the first 100 elements of the old
    content followed by those copies. *)
Theorem AddEarthquakes_notifications rd eqs em :
  (length (newEarthquakeChan em) ≤ newEarthquakeChanCap)%nat →
  newEarthquakeChan (AddEarthquakes rd eqs em).1
  = take newEarthquakeChanCap
      (newEarthquakeChan em
       ++ (CategorizeEarthquake rd <$> (AddEarthquakes rd eqs em).2)).
Proof.
  intros Hlen. unfold AddEarthquakes.
  destruct (AddEarthquakes_loop_spec rd eqs em [])
    as (new & Hres & _ & _ & _ & _ & _ & _ & Hchan).
  rewrite app_nil_l in Hres. rewrite Hres. by apply Hchan.
Qed.

(** Witness of [AddEarthquakes_notifications]: three events offered to a
    new manager. *)
Lemma AddEarthquakes_notifications_witness :
  newEarthquakeChan
    (AddEarthquakes (Some overlapping) [t2; t3; t1] (NewEarthquakeManager (7 * day))).1
  = take newEarthquakeChanCap
      ([] ++ (CategorizeEarthquake (Some overlapping)
                <$> (AddEarthquakes (Some overlapping) [t2; t3; t1]
                       (NewEarthquakeManager (7 * day))).2)).
Proof.
  apply (AddEarthquakes_notifications (Some overlapping) [t2; t3; t1]
           (NewEarthquakeManager (7 * day))).
  cbn. lia.
Defined.

(** ** Identifiers *)

Lemma NoDup_fmap_filter {A B} (f : A → B) (g : A → bool) (l : list A) :
  NoDup (f <$> l) → NoDup (f <$> List.filter g l).
Proof.
  induction l as [|x l IH]; [done|]. cbn [fmap list_fmap List.filter].
  intros [Hx Hnd]%NoDup_cons. destruct (g x); [|by apply IH].
  cbn [fmap list_fmap]. apply NoDup_cons. split; [|by apply IH].
  intros (y & Hy & Hin)%list_elem_of_fmap. apply Hx, list_elem_of_fmap.
  exists y. split; [done|]. apply list_elem_of_In.
  apply list_elem_of_In, filter_In in Hin. tauto.
Qed.

Lemma range_values_IDs rd em :
  store_inv rd em → ID <$> range_values em = (map_to_list (earthquakes em)).*1.
Proof.
  intros Hinv. unfold range_values.
  assert (Hall : ∀ k e, (k, e) ∈ map_to_list (earthquakes em) → ID e = k).
  { intros k e Hin%elem_of_map_to_list. by apply (Hinv k e). }
  induction (map_to_list (earthquakes em)) as [|[k e] l IH]; [done|].
  cbn [fmap list_fmap fst snd]. f_equal.
  - apply Hall. left.
  - apply IH. intros k' e' Hin. apply Hall. by right.
Qed.

(** X11: in every reachable state each entry is stored under its own
    identifier, so no two entries share one, and no query returns two
    records with the same identifier. *)
Theorem identifiers_unique rd em :
  reachable rd em →
  map_Forall (λ id eq, ID eq = id) (earthquakes em)
  ∧ NoDup (ID <$> range_values em)
  ∧ ∀ q, NoDup (ID <$> runQuery q em).
Proof.
  intros Hinv%reachable_store_inv.
  assert (Hnd : NoDup (ID <$> range_values em)).
  { rewrite (range_values_IDs rd em Hinv). apply NoDup_fst_map_to_list. }
  split; [|split; [exact Hnd|]].
  - intros id eq Hid. by apply (Hinv id eq).
  - intros q. destruct q; cbn [runQuery];
      unfold GetAll, GetByOceano, GetByRegion, GetByTimeRange;
      rewrite sort_Slice_perm; by apply NoDup_fmap_filter.
Qed.

(** Witness of [identifiers_unique]: the manager holding ["a"]. *)
Lemma identifiers_unique_witness : NoDup (ID <$> GetAll holding_a).
Proof.
  destruct (identifiers_unique (Some overlapping) holding_a) as (_ & _ & Hq).
  - apply reach_add, reach_new.
  - exact (Hq QueryAll).
Defined.

(** ** Statistics *)

Lemma countBy_lookup (key : Earthquake → string) l k : ∀ m,
  fold_left (λ m eq, increment m (key eq)) l m !! k
  = match length (List.filter (λ eq, (key eq =? k)%string) l) with
    | O => m !! k
    | S n => Some (default 0 (m !! k) + Z.of_nat (S n))%Z
    end.
Proof.
  induction l as [|e l IH]; intros m; [done|]. cbn [fold_left List.filter].
  rewrite IH. unfold increment.
  destruct (String.eqb_spec (key e) k) as [->|Hne].
  - rewrite lookup_insert_eq. cbn [length default].
    destruct (length (List.filter _ l)); f_equal; unfold id; lia.
  - by rewrite lookup_insert_ne.
Qed.

Lemma sumCounts_increment m k : sumCounts (increment m k) = (sumCounts m + 1)%Z.
Proof.
  unfold sumCounts, increment.
  assert (Hcomm : ∀ (m' : gmap string Z) (j1 j2 : string) (z1 z2 y : Z),
            j1 ≠ j2 → m' !! j1 = Some z1 → m' !! j2 = Some z2 →
            (z1 + (z2 + y) = z2 + (z1 + y))%Z) by (intros; lia).
  destruct (m !! k) as [v|] eqn:Hk; cbn [default].
  - rewrite <- (insert_delete_eq m k (v + 1)%Z).
    rewrite map_fold_insert_L; [|by apply Hcomm|by apply lookup_delete_eq].
    rewrite (map_fold_delete_L _ _ k v m); [lia|by apply Hcomm|exact Hk].
  - rewrite map_fold_insert_L; [lia|by apply Hcomm|exact Hk].
Qed.

Lemma sumCounts_countBy key l : sumCounts (countBy key l) = Z.of_nat (length l).
Proof.
  unfold countBy.
  assert (H : ∀ m, sumCounts (fold_left (λ m eq, increment m (key eq)) l m)
                   = (sumCounts m + Z.of_nat (length l))%Z).
  { induction l as [|e l IH]; intros m; cbn [fold_left length]; [lia|].
    rewrite IH, sumCounts_increment. lia. }
  rewrite H. unfold sumCounts. by rewrite map_fold_empty.
Qed.

Lemma length_sort_Slice {A} (less : A → A → bool) l :
  length (sort_Slice less l) = length l.
Proof. by rewrite sort_Slice_perm. Qed.

Lemma GetStats_counts_helper em :
  (∀ oceano, by_oceano (GetStats em) !! oceano
             = match length (GetByOceano oceano em) with
               | O => None
               | S n => Some (Z.of_nat (S n))
               end)
  ∧ (∀ region, by_region (GetStats em) !! region
               = match length (GetByRegion region em) with
                 | O => None
                 | S n => Some (Z.of_nat (S n))
                 end)
  ∧ total (GetStats em) = Z.of_nat (length (range_values em)).
Proof.
  split; [|split].
  - intros oceano. cbn [GetStats by_oceano]. unfold countBy, GetByOceano.
    rewrite countBy_lookup, length_sort_Slice, lookup_empty.
    by destruct (length _).
  - intros region. cbn [GetStats by_region]. unfold countBy, GetByRegion.
    rewrite countBy_lookup, length_sort_Slice, lookup_empty.
    by destruct (length _).
  - cbn [GetStats total]. unfold range_values.
    by rewrite length_fmap, length_map_to_list.
Qed.

(** X12: [GetStats] agrees with the queries on any index.  A basin or region
    is a key of its grouping exactly when some entry carries it, with the
    length of [GetByOceano] or [GetByRegion] for that name as its count;
    [total] is the number of entries, and the counts of each of the three
    groupings add up to it. *)
Theorem GetStats_counts em :
  (∀ oceano, by_oceano (GetStats em) !! oceano
             = match length (GetByOceano oceano em) with
               | O => None
               | S n => Some (Z.of_nat (S n))
               end)
  ∧ (∀ region, by_region (GetStats em) !! region
               = match length (GetByRegion region em) with
                 | O => None
                 | S n => Some (Z.of_nat (S n))
                 end)
  ∧ total (GetStats em) = Z.of_nat (length (range_values em))
  ∧ sumCounts (by_oceano (GetStats em)) = total (GetStats em)
  ∧ sumCounts (by_region (GetStats em)) = total (GetStats em)
  ∧ sumCounts (by_source (GetStats em)) = total (GetStats em).
Proof.
  destruct (GetStats_counts_helper em) as (Ho & Hr & Htotal).
  split; [exact Ho|]. split; [exact Hr|]. split; [exact Htotal|].
  rewrite Htotal. cbn [GetStats by_oceano by_region by_source].
  by rewrite !sumCounts_countBy.
Qed.

(** X13: in every reachable state the three counts of the service agree:
    [total] of [GetStats], [GetCount] and the length of [GetAll]; and
    neither the empty name nor ["Uncategorized"] is a key of the basin or
    the region grouping. *)
Theorem reachable_counts_agree rd em :
  reachable rd em →
  total (GetStats em) = GetCount em
  ∧ GetCount em = Z.of_nat (length (GetAll em))
  ∧ by_oceano (GetStats em) !! "" = None
  ∧ by_oceano (GetStats em) !! "Uncategorized" = None
  ∧ by_region (GetStats em) !! "" = None
  ∧ by_region (GetStats em) !! "Uncategorized" = None.
Proof.
  intros Hinv%reachable_store_inv.
  assert (Hlab : ∀ eq, eq ∈ range_values em → labeled eq).
  { intros eq [id Hid]%elem_of_range_values. by apply (Hinv id eq). }
  assert (Hall : List.filter isCategorized (range_values em) = range_values em).
  { apply filter_all. intros eq Heq. by apply isCategorized_labeled, Hlab. }
  assert (Hnone : ∀ (f : Earthquake → bool),
            (∀ eq, labeled eq → f eq = false) →
            length (sort_Slice byTimeDesc (List.filter f (range_values em))) = O).
  { intros f Hf. rewrite length_sort_Slice.
    rewrite GeometryMore.filter_none; [done|]. intros eq Heq. by apply Hf, Hlab. }
  destruct (GetStats_counts_helper em) as (Ho & Hr & Htotal).
  split; [by rewrite Htotal, GetCount_length, Hall|].
  split; [unfold GetAll; by rewrite GetCount_length, length_sort_Slice|].
  rewrite !Ho, !Hr. unfold GetByOceano, GetByRegion.
  rewrite !Hnone; [done|..]; intros eq (H1 & H2 & H3 & H4);
    by apply String.eqb_neq.
Qed.

(** Witness of [reachable_counts_agree]: the manager holding ["a"]. *)
Lemma reachable_counts_agree_witness :
  total (GetStats holding_a) = GetCount holding_a.
Proof.
  apply (reachable_counts_agree (Some overlapping) holding_a).
  apply reach_add, reach_new.
Defined.

(** ** What the queries return *)

Lemma elem_of_query (f : Earthquake → bool) em eq :
  eq ∈ sort_Slice byTimeDesc (List.filter f (range_values em))
  ↔ (∃ id, earthquakes em !! id = Some eq) ∧ f eq = true.
Proof.
  rewrite elem_of_sort_Slice, list_elem_of_In, filter_In, <- list_elem_of_In.
  by rewrite elem_of_range_values.
Qed.

(** X14: on any index each query returns exactly the entries that pass its
    test: [GetAll] the labeled ones, [GetByOceano] and [GetByRegion] those
    with that very name, [GetByTimeRange] those strictly after [start] and
    strictly before [end]. *)
Theorem query_membership em eq :
  (eq ∈ GetAll em ↔ (∃ id, earthquakes em !! id = Some eq) ∧ labeled eq)
  ∧ (∀ oceano, eq ∈ GetByOceano oceano em
               ↔ (∃ id, earthquakes em !! id = Some eq) ∧ Oceano eq = oceano)
  ∧ (∀ region, eq ∈ GetByRegion region em
               ↔ (∃ id, earthquakes em !! id = Some eq) ∧ OceanoRegion eq = region)
  ∧ (∀ start end_, eq ∈ GetByTimeRange start end_ em
                   ↔ (∃ id, earthquakes em !! id = Some eq)
                     ∧ (start < Time eq < end_)%Z).
Proof.
  unfold GetAll, GetByOceano, GetByRegion, GetByTimeRange.
  split; [|split; [|split]]; intros; rewrite elem_of_query.
  - by rewrite isCategorized_labeled.
  - by rewrite String.eqb_eq.
  - by rewrite String.eqb_eq.
  - unfold After, Before. rewrite andb_true_iff, !Z.ltb_lt. tauto.
Qed.

(** Witness of [query_membership]: the six-day-old event is found by a
    range around its time, and not by a range that starts at its time. *)
Lemma query_membership_witness :
  sixDaysOld ∈ GetByTimeRange (93 * day) (95 * day) holding_old_and_recent
  ∧ sixDaysOld ∉ GetByTimeRange (94 * day) (95 * day) holding_old_and_recent.
Proof.
  destruct (query_membership holding_old_and_recent sixDaysOld) as (_ & _ & _ & Hrange).
  split.
  - apply Hrange. split; [by exists "recent"|]. vm_compute. by split.
  - intros [_ [Hlt _]]%Hrange. vm_compute in Hlt. discriminate Hlt.
Defined.

(** ** Eviction *)

Lemma manager_eq (a b : EarthquakeManager) :
  earthquakes a = earthquakes b → maxAge a = maxAge b →
  newEarthquakeChan a = newEarthquakeChan b → a = b.
Proof. destruct a, b. cbn. by intros -> -> ->. Qed.

(** X15: after [CleanOld] every remaining entry is at least as recent as
    the cutoff the code computes (for every [maxAge], the wrapping one
    included), and a second [CleanOld] at the same or an earlier instant
    removes nothing and returns 0. *)
Theorem CleanOld_settles now now' em :
  (now' ≤ now)%Z →
  map_Forall (λ _ eq, (CleanOld_cutoff now em ≤ Time eq)%Z)
    (earthquakes (CleanOld now em).1)
  ∧ CleanOld now' (CleanOld now em).1 = ((CleanOld now em).1, 0%Z).
Proof.
  intros Hnow.
  assert (Hrecent : map_Forall (λ _ eq, (CleanOld_cutoff now em ≤ Time eq)%Z)
                      (earthquakes (CleanOld now em).1)).
  { intros id eq. rewrite CleanOld_lookup.
    destruct (earthquakes em !! id) as [eq'|]; [|done]. unfold Before.
    destruct (Time eq' <? CleanOld_cutoff now em)%Z eqn:Hold; [done|].
    intros [= <-]. by apply Z.ltb_ge. }
  split; [exact Hrecent|].
  destruct (CleanOld_chan now em) as [Hchan Hage].
  destruct (CleanOld_chan now' (CleanOld now em).1) as [Hchan' Hage'].
  assert (Hmap : earthquakes (CleanOld now' (CleanOld now em).1).1
                 = earthquakes (CleanOld now em).1).
  { apply map_eq. intros id. rewrite (CleanOld_lookup now' (CleanOld now em).1).
    destruct (earthquakes (CleanOld now em).1 !! id) as [eq|] eqn:Hid; [|done].
    specialize (Hrecent id eq Hid). cbn beta in Hrecent. unfold Before.
    destruct (Time eq <? CleanOld_cutoff now' (CleanOld now em).1)%Z eqn:Hold; [|done].
    apply Z.ltb_lt in Hold. unfold CleanOld_cutoff in *. rewrite Hage in Hold. lia. }
  pose proof (CleanOld_size now' (CleanOld now em).1) as Hsize.
  rewrite Hmap in Hsize.
  destruct (CleanOld now' (CleanOld now em).1) as [em2 removed].
  cbn [fst snd] in *. f_equal; [|lia]. by apply manager_eq.
Qed.

(** Witness of [CleanOld_settles]: cleaning twice at day 100 leaves the
    six-day-old event, which is not older than the cutoff of day 93. *)
Lemma CleanOld_settles_witness :
  map_Forall (λ _ eq, (93 * day ≤ Time eq)%Z)
    (earthquakes (CleanOld (100 * day) holding_old_and_recent).1)
  ∧ CleanOld (100 * day) (CleanOld (100 * day) holding_old_and_recent).1
    = ((CleanOld (100 * day) holding_old_and_recent).1, 0%Z).
Proof.
  apply (CleanOld_settles (100 * day) (100 * day) holding_old_and_recent). lia.
Defined.

(** X16: eviction forgets identifiers.  An event that [AddEarthquake] turns
    down because its identifier is stored is accepted again, stored and
    notified once [CleanOld] has removed the stored entry, that is once the
    stored entry is before the cutoff the code computes. *)
Theorem evicted_event_accepted_again rd now E old em :
  earthquakes em !! ID E = Some old →
  (Time old < CleanOld_cutoff now em)%Z →
  notCategorized (CategorizeEarthquake rd E) = false →
  AddEarthquake rd E em = (em, false)
  ∧ (AddEarthquake rd E (CleanOld now em).1).2 = true
  ∧ earthquakes (AddEarthquake rd E (CleanOld now em).1).1 !! ID E
    = Some (CategorizeEarthquake rd E).
Proof.
  intros Hold Htime Hcat. split; [apply AddEarthquake_duplicate; by eexists|].
  assert (Hgone : earthquakes (CleanOld now em).1 !! ID E = None).
  { rewrite CleanOld_lookup, Hold. unfold Before.
    apply Z.ltb_lt in Htime. by rewrite Htime. }
  destruct (AddEarthquake_new rd E (CleanOld now em).1 Hgone Hcat) as [Hacc Hmap].
  split; [exact Hacc|]. rewrite Hmap. apply lookup_insert_eq.
Qed.

(** Witness of [evicted_event_accepted_again]: the eight-day-old event is
    turned down while stored and accepted after cleaning at day 100. *)
Lemma evicted_event_accepted_again_witness :
  AddEarthquake (Some overlapping) eightDaysOld holding_old_and_recent
  = (holding_old_and_recent, false)
  ∧ (AddEarthquake (Some overlapping) eightDaysOld
       (CleanOld (100 * day) holding_old_and_recent).1).2 = true
  ∧ earthquakes (AddEarthquake (Some overlapping) eightDaysOld
                   (CleanOld (100 * day) holding_old_and_recent).1).1
      !! ID eightDaysOld
    = Some (CategorizeEarthquake (Some overlapping) eightDaysOld).
Proof.
  apply (evicted_event_accepted_again (Some overlapping) (100 * day) eightDaysOld
           eightDaysOld holding_old_and_recent).
  - reflexivity.
  - vm_compute. reflexivity.
  - vm_compute. reflexivity.
Defined.

End ManagerMore.

(* ===================================================================== *)
(** * Further properties of the hub *)
(* ===================================================================== *)

Module WebsocketMore.
Import Websocket WebsocketProofs.
Local Open Scope list_scope.

Lemma hub_inv_active_open h : hub_inv h → active_open h.
Proof.
  intros [Halloc Hinv] c Hc. destruct (Halloc c Hc) as [ch Hch].
  exists ch. split; [exact Hch|]. by apply (Hinv c ch Hch).
Qed.

Lemma hub_inv_broadcast m h h' :
  hub_inv h → Run_broadcast m h = Some h' → hub_inv h'.
Proof.
  intros Hinv Hrun. pose proof Hinv as [Halloc Hqueue].
  destruct (Run_broadcast_open m h (hub_inv_active_open h Hinv))
    as (h'' & Hrun' & Hroom & Hfull & Hother & _).
  rewrite Hrun in Hrun'. injection Hrun' as <-.
  assert (Hcases : ∀ c, ((c ∉ clients h) ∧ (c ∉ clients h') ∧ send h' !! c = send h !! c)
            ∨ (∃ ch, send h !! c = Some ch ∧ closed ch = false
                     ∧ (length (buf ch) < sendCap)%nat
                     ∧ c ∈ clients h' ∧ send h' !! c = Some (queued m ch))
            ∨ (∃ ch, send h !! c = Some ch ∧ (length (buf ch) ≤ sendCap)%nat
                     ∧ (c ∉ clients h') ∧ send h' !! c = Some (closedQueue ch))).
  { intros c. destruct (decide (c ∈ clients h)) as [Hc|Hc].
    - right. destruct (Halloc c Hc) as [ch Hch].
      destruct (Hqueue c ch Hch) as [Hopen Hlen].
      destruct (decide (length (buf ch) < sendCap)%nat) as [Hlt|Hge].
      + left. exists ch. destruct (Hroom c ch Hc Hch Hlt). by rewrite <- Hopen.
      + right. exists ch. destruct (Hfull c ch Hc Hch); [lia|]. done.
    - left. destruct (Hother c Hc). done. }
  split.
  - intros c Hc. destruct (Hcases c) as [(_ & Hn & _)|[(ch & _ & _ & _ & _ & ->)|(ch & _ & _ & Hn & _)]];
      done.
  - intros c ch' Hch'.
    destruct (Hcases c) as [(Hn & Hn' & Hs)|[(ch & Hch & Hopen & Hlt & Hc' & Hs)|(ch & Hch & Hlen & Hn' & Hs)]].
    + rewrite Hs in Hch'. destruct (Hqueue c ch' Hch') as [Hiff Hlen].
      split; [|exact Hlen]. split; [done|]. intros Hcl. by apply Hiff in Hcl.
    + rewrite Hs in Hch'. injection Hch' as <-. cbn [queued closed buf].
      split; [done|]. rewrite length_app. cbn [length]. lia.
    + rewrite Hs in Hch'. injection Hch' as <-. cbn [closedQueue closed buf].
      split; [|exact Hlen]. split; [done|discriminate].
Qed.

Lemma hub_inv_ServeWs h h' : hub_inv h → ServeWs h = Some h' → hub_inv h'.
Proof.
  intros [Halloc Hqueue] [= <-]. cbn [clients send].
  pose proof (is_fresh (dom (send h))) as Hfresh.
  generalize dependent (fresh (dom (send h))). intros c0 Hfresh.
  assert (Hnot : c0 ∉ clients h).
  { intros Hc. apply Hfresh, elem_of_dom. by apply Halloc. }
  split.
  - cbn [clients send]. intros c [->%elem_of_singleton|Hc]%elem_of_union.
    + rewrite lookup_insert_eq. by eexists.
    + rewrite lookup_insert_ne by (intros <-; done). by apply Halloc.
  - cbn [clients send]. intros c ch. rewrite lookup_insert. case_decide as Hc.
    + intros [= <-]. subst c. cbn. split; [|lia]. split; [done|].
      intros _. apply elem_of_union. left. by apply elem_of_singleton.
    + intros Hch. destruct (Hqueue c ch Hch) as [Hiff Hlen]. split; [|exact Hlen].
      rewrite <- Hiff, elem_of_union, elem_of_singleton. intuition congruence.
Qed.

Lemma hub_inv_unregister c h h' :
  hub_inv h → Run_unregister c h = Some h' → hub_inv h'.
Proof.
  intros [Halloc Hqueue]. unfold Run_unregister. case_decide as Hc; [|by intros [= <-]].
  destruct (Halloc c Hc) as [ch Hch]. rewrite Hch. cbn [mbind option_bind].
  destruct (Hqueue c ch Hch) as [Hiff Hlen]. unfold chan_close.
  rewrite (proj1 Hiff Hc). cbn [mbind option_bind]. intros [= <-]. cbn [clients send].
  split; cbn [clients send].
  - intros c' [Hc' Hne%not_elem_of_singleton]%elem_of_difference.
    rewrite lookup_insert_ne by done. by apply Halloc.
  - intros c' ch'. rewrite lookup_insert. case_decide as Heq.
    + intros [= <-]. subst c'. cbn [closed buf]. split; [|exact Hlen].
      rewrite elem_of_difference, elem_of_singleton. intuition congruence.
    + intros Hch'. destruct (Hqueue c' ch' Hch') as [Hiff' Hlen']. split; [|exact Hlen'].
      rewrite <- Hiff', elem_of_difference, elem_of_singleton. intuition congruence.
Qed.

Lemma hub_inv_receive c h : hub_inv h → hub_inv (writePump_receive c h).
Proof.
  intros [Halloc Hqueue]. unfold writePump_receive. split; cbn [clients send].
  - intros c' Hc'. rewrite lookup_alter. case_decide; [|by apply Halloc].
    subst. destruct (Halloc c' Hc') as [ch ->]. by eexists.
  - intros c' ch'. rewrite lookup_alter. case_decide as Heq; [|by apply Hqueue].
    subst c'. destruct (send h !! c) as [ch|] eqn:Hch; [|done].
    intros [= <-]. cbn [closed buf]. destruct (Hqueue c ch Hch) as [Hiff Hlen].
    split; [exact Hiff|]. destruct (buf ch); cbn [tail length] in *; lia.
Qed.

Lemma reachable_inv h : reachable h → hub_inv h.
Proof.
  induction 1 as [|h h' _ IH Hs|c h h' _ IH _ Hu|m h h' _ IH Hb|c h _ IH].
  - split; [by intros c ?%not_elem_of_empty|]. intros c ch. cbn. by rewrite lookup_empty.
  - by eapply hub_inv_ServeWs.
  - by eapply hub_inv_unregister.
  - by eapply hub_inv_broadcast.
  - by apply hub_inv_receive.
Qed.

(** X17: in every state of a running hub each active session has a queue,
    a queue is open exactly while its session is in the active set, and no
    queue holds more than 256 payloads. *)
Theorem reachable_hub_inv h :
  reachable h →
  (∀ c, c ∈ clients h → is_Some (send h !! c))
  ∧ (∀ c ch, send h !! c = Some ch →
       (c ∈ clients h ↔ closed ch = false)
       ∧ (length (buf ch) ≤ sendCap)%nat).
Proof. apply reachable_inv. Qed.

Lemma oneSession_reachable : reachable oneSession.
Proof.
  apply (reach_serve NewHub); [apply reach_new|]. vm_compute. reflexivity.
Qed.

(** Witness of [reachable_hub_inv]: the hub after one connection. *)
Lemma reachable_hub_inv_witness : is_Some (send oneSession !! 0%nat).
Proof.
  apply (proj1 (reachable_hub_inv oneSession oneSession_reachable) 0%nat).
  apply (bool_decide_unpack _). vm_compute. exact I.
Defined.

(** ** No request makes the loop panic *)

(** X18: from every state of a running hub each request is served without
    a panic: a connection, the unregistration of any session (also one
    already unregistered or evicted), and any broadcast. *)
Theorem hub_never_panics h :
  reachable h →
  is_Some (ServeWs h)
  ∧ (∀ c, is_Some (Run_unregister c h))
  ∧ (∀ m, is_Some (Run_broadcast m h))
  ∧ (∀ ms, is_Some (Run_broadcasts ms h)).
Proof.
  intros Hinv%reachable_inv.
  split; [by eexists|]. split; [|split].
  - intros c. destruct (Run_unregister_open c h (hub_inv_active_open h Hinv)) as (h' & -> & _).
    by eexists.
  - intros m. destruct (Run_broadcast_open m h (hub_inv_active_open h Hinv)) as (h' & -> & _).
    by eexists.
  - intros ms. revert h Hinv. induction ms as [|m ms IH]; intros h Hinv; [by eexists|].
    cbn [Run_broadcasts].
    destruct (Run_broadcast_open m h (hub_inv_active_open h Hinv)) as (h' & Hrun & _).
    rewrite Hrun. cbn [mbind option_bind]. apply IH. by eapply hub_inv_broadcast.
Qed.

(** Witness of [hub_never_panics]: unregistering the only session. *)
Lemma hub_never_panics_witness : is_Some (Run_unregister 0%nat oneSession).
Proof.
  destruct (hub_never_panics oneSession oneSession_reachable) as (_ & Hunreg & _).
  exact (Hunreg 0%nat).
Defined.

(** ** Unregistration *)

(** X19: unregistering is idempotent and local.  On a hub whose active
    sessions have open queues it succeeds, the session is no longer active
    and its queue, if it was active, is closed with its content kept; every
    other session is left as it was; unregistering the same session again
    changes nothing. *)
Theorem Run_unregister_idempotent c h :
  active_open h →
  ∃ h', Run_unregister c h = Some h'
    ∧ (c ∉ clients h')
    ∧ (∀ ch, c ∈ clients h → send h !! c = Some ch →
             send h' !! c = Some {| buf := buf ch; closed := true |})
    ∧ (∀ c', c' ≠ c → (c' ∈ clients h' ↔ c' ∈ clients h)
                      ∧ send h' !! c' = send h !! c')
    ∧ Run_unregister c h' = Some h'.
Proof.
  intros Hopen. unfold Run_unregister at 1. case_decide as Hc.
  - destruct (Hopen c Hc) as (ch & Hch & Hchopen). rewrite Hch.
    cbn [mbind option_bind]. unfold chan_close. rewrite Hchopen.
    cbn [mbind option_bind]. eexists. split; [reflexivity|]. cbn [clients send].
    assert (Hgone : c ∉ clients h ∖ {[c]})
      by (rewrite elem_of_difference, elem_of_singleton; tauto).
    split; [exact Hgone|]. split; [|split].
    + intros ch' _ Hch'. injection Hch' as <-. apply lookup_insert_eq.
    + intros c' Hne. rewrite lookup_insert_ne by done. split; [|done].
      rewrite elem_of_difference, elem_of_singleton. tauto.
    + unfold Run_unregister. cbn [clients]. by rewrite decide_False.
  - exists h. split; [reflexivity|]. split; [exact Hc|]. split; [done|].
    split; [done|]. unfold Run_unregister. by rewrite decide_False.
Qed.

(** Witness of [Run_unregister_idempotent]: the full session of the three. *)
Lemma Run_unregister_idempotent_witness :
  ∃ h', Run_unregister 2%nat threeSessions = Some h'
        ∧ Run_unregister 2%nat h' = Some h'.
Proof.
  destruct (Run_unregister_idempotent 2%nat threeSessions threeSessions_open)
    as (h' & Hrun & _ & _ & _ & Hagain).
  by exists h'.
Defined.

(** ** Connections *)

(** X20: in a running hub [ServeWs] adds exactly one session, one that was
    not active before, with an empty open queue; the sessions already there
    keep their queues, and [GetClientCount] goes up by one. *)
Theorem ServeWs_adds_one h :
  reachable h →
  ∃ c h', ServeWs h = Some h'
    ∧ (c ∉ clients h)
    ∧ clients h' = {[c]} ∪ clients h
    ∧ send h' !! c = Some make_chan
    ∧ (∀ c', c' ∈ clients h → send h' !! c' = send h !! c')
    ∧ GetClientCount h' = S (GetClientCount h).
Proof.
  intros Hinv%reachable_inv. destruct Hinv as [Halloc _].
  pose proof (is_fresh (dom (send h))) as Hfresh.
  assert (Hnot : fresh (dom (send h)) ∉ clients h).
  { intros Hc. apply Hfresh, elem_of_dom. by apply Halloc. }
  exists (fresh (dom (send h))). eexists. split; [reflexivity|].
  cbn [clients send]. split; [exact Hnot|]. split; [reflexivity|].
  split; [apply lookup_insert_eq|]. split.
  - intros c' Hc'. rewrite lookup_insert_ne; [done|]. by intros <-.
  - unfold GetClientCount. cbn [clients].
    rewrite size_union by (apply disjoint_singleton_l; exact Hnot).
    by rewrite size_singleton.
Qed.

(** Witness of [ServeWs_adds_one]: a second connection. *)
Lemma ServeWs_adds_one_witness :
  ∃ h', ServeWs oneSession = Some h'
        ∧ GetClientCount h' = S (GetClientCount oneSession).
Proof.
  destruct (ServeWs_adds_one oneSession oneSession_reachable)
    as (c & h' & Hrun & _ & _ & _ & _ & Hcount).
  by exists h'.
Defined.

(** ** A session that does not drain its queue *)

Lemma Run_broadcasts_inactive c ms : ∀ h,
  hub_inv h → c ∉ clients h →
  ∃ h', Run_broadcasts ms h = Some h'
    ∧ (c ∉ clients h') ∧ send h' !! c = send h !! c.
Proof.
  induction ms as [|m ms IH]; intros h Hinv Hc; [by exists h|].
  cbn [Run_broadcasts].
  destruct (Run_broadcast_open m h (hub_inv_active_open h Hinv))
    as (h1 & Hrun & _ & _ & Hother & _).
  rewrite Hrun. cbn [mbind option_bind]. destruct (Hother c Hc) as [Hc1 Hs1].
  destruct (IH h1) as (h' & Hrun' & Hc' & Hs'); [by eapply hub_inv_broadcast|done|].
  exists h'. by rewrite Hs', Hs1.
Qed.

(** X21: broadcasts queue up in order until the queue is full, and the next
    one evicts.  For an active session holding [k] payloads, after the
    broadcasts [ms] with nothing delivered in between: if [k + |ms| <= 256]
    the session is still active and its queue is the old content followed
    by [ms]; otherwise it has been removed and its queue closed, holding the
    old content and the first [256 - k] of [ms]. *)
Theorem Run_broadcasts_threshold ms : ∀ h c ch,
  hub_inv h → c ∈ clients h → send h !! c = Some ch →
  ∃ h', Run_broadcasts ms h = Some h'
    ∧ if (length (buf ch) + length ms <=? sendCap)%nat
      then c ∈ clients h'
           ∧ send h' !! c = Some {| buf := buf ch ++ ms; closed := false |}
      else (c ∉ clients h')
           ∧ send h' !! c
             = Some {| buf := buf ch ++ take (sendCap - length (buf ch)) ms;
                       closed := true |}.
Proof.
  induction ms as [|m ms IH]; intros h c ch Hinv Hc Hch.
  - exists h. split; [reflexivity|]. destruct (proj2 Hinv c ch Hch) as [Hiff Hlen].
    cbn [length]. rewrite Nat.add_0_r. apply Nat.leb_le in Hlen. rewrite Hlen.
    split; [exact Hc|]. rewrite Hch, app_nil_r. f_equal.
    destruct ch as [b cl]. cbn in *. f_equal. by apply Hiff.
  - cbn [Run_broadcasts].
    destruct (Run_broadcast_open m h (hub_inv_active_open h Hinv))
      as (h1 & Hrun & Hroom & Hfull & _ & _).
    rewrite Hrun. cbn [mbind option_bind].
    pose proof (hub_inv_broadcast m h h1 Hinv Hrun) as Hinv1.
    destruct (proj2 Hinv c ch Hch) as [_ Hlen].
    destruct (decide (length (buf ch) < sendCap)%nat) as [Hlt|Hge].
    + destruct (Hroom c ch Hc Hch Hlt) as [Hc1 Hch1].
      destruct (IH h1 c (queued m ch) Hinv1 Hc1 Hch1) as (h' & Hrun' & Hres).
      exists h'. split; [exact Hrun'|]. cbn [queued buf length] in Hres.
      rewrite length_app in Hres. cbn [length] in *.
      replace (length (buf ch) + 1 + length ms)%nat
        with (length (buf ch) + S (length ms))%nat in Hres by lia.
      destruct (length (buf ch) + S (length ms) <=? sendCap)%nat.
      * by rewrite <- app_assoc in Hres.
      * rewrite <- app_assoc in Hres. cbn [app] in Hres.
        replace (sendCap - length (buf ch))%nat
          with (S (sendCap - (length (buf ch) + 1)))%nat by lia.
        exact Hres.
    + destruct (Hfull c ch Hc Hch) as [Hc1 Hch1]; [lia|].
      destruct (Run_broadcasts_inactive c ms h1 Hinv1 Hc1) as (h' & Hrun' & Hc' & Hs').
      exists h'. split; [exact Hrun'|]. cbn [length].
      assert (Hover : (length (buf ch) + S (length ms) <=? sendCap)%nat = false)
        by (apply Nat.leb_gt; lia).
      rewrite Hover. split; [exact Hc'|]. rewrite Hs', Hch1.
      replace (sendCap - length (buf ch))%nat with O by lia.
      by rewrite take_0, app_nil_r.
Qed.

Lemma threeSessions_inv : hub_inv threeSessions.
Proof.
  split.
  - intros c Hc. unfold threeSessions in *. cbn [clients send] in *.
    rewrite !elem_of_union, !elem_of_singleton in Hc.
    destruct Hc as [[->| ->]| ->]; by eexists.
  - apply (bool_decide_unpack
             (map_Forall (λ c ch, (c ∈ clients threeSessions ↔ closed ch = false)
                                  ∧ (length (buf ch) ≤ sendCap)%nat)
                (send threeSessions))).
    vm_compute. exact I.
Qed.

(** Witness of [Run_broadcasts_threshold]: one broadcast to the three
    sessions; the first has room, and its queue then holds the payload. *)
Lemma Run_broadcasts_threshold_witness :
  ∃ h', Run_broadcasts [[Byte.x61]] threeSessions = Some h'
        ∧ 1%nat ∈ clients h'
        ∧ send h' !! 1%nat = Some {| buf := [[Byte.x61]]; closed := false |}.
Proof.
  destruct (Run_broadcasts_threshold [[Byte.x61]] threeSessions 1%nat make_chan
              threeSessions_inv) as (h' & Hrun & Hres).
  - apply (bool_decide_unpack _). vm_compute. exact I.
  - reflexivity.
  - exists h'. split; [exact Hrun|]. exact Hres.
Defined.

(** ** The writer of a session *)

Lemma lines_frame (message : bytes) (pending : list bytes) :
  Forall (λ p, newline ∉ p) (message :: pending) →
  lines (message ++ concat ((λ m, newline :: m) <$> pending)) = message :: pending.
Proof.
  revert message. induction pending as [|p pending IH]; intros message Hfree.
  - cbn [fmap list_fmap concat]. rewrite app_nil_r.
    apply Forall_cons in Hfree as [Hm _].
    induction message as [|b message IHm]; [reflexivity|]. cbn [lines].
    destruct (Byte.eqb b newline) eqn:Hb.
    + apply Byte.byte_dec_bl in Hb. subst b. exfalso. apply Hm. left.
    + rewrite IHm; [reflexivity|]. intros Hin. apply Hm. by right.
  - apply Forall_cons in Hfree as [Hm Hfree]. cbn [fmap list_fmap concat].
    induction message as [|b message IHm].
    + cbn [app lines]. rewrite (Byte.byte_dec_lb (eq_refl newline)).
      by rewrite (IH p Hfree).
    + rewrite <- app_comm_cons. cbn [lines]. destruct (Byte.eqb b newline) eqn:Hb.
      * apply Byte.byte_dec_bl in Hb. subst b. exfalso. apply Hm. left.
      * rewrite IHm; [reflexivity|]. intros Hin. apply Hm. by right.
Qed.

(** X22: one turn of the writer on a non-empty queue.  While the
    connection gives a writer and the writer's [Close] succeeds, the turn
    empties the queue into a single text message and the loop goes on; when
    no payload contains a newline the pieces of that message between its
    newlines are the queued payloads, in queue order.  When the connection
    gives no writer the first payload is lost, when [Close] fails all of
    them are; in both cases nothing reaches the peer and the loop ends.
    The queue stays open or closed as it was. *)
Theorem writePump_frame_lines cn ch message pending :
  buf ch = message :: pending →
  (NextWriter_ok cn = true → Close_ok cn = true →
   ∃ data, writePump_message cn ch
           = Some (Some (TextMessage data), {| buf := []; closed := closed ch |}, true)
     ∧ (Forall (λ p, newline ∉ p) (buf ch) → lines data = buf ch))
  ∧ (NextWriter_ok cn = false →
     writePump_message cn ch
     = Some (None, {| buf := pending; closed := closed ch |}, false))
  ∧ (NextWriter_ok cn = true → Close_ok cn = false →
     writePump_message cn ch
     = Some (None, {| buf := []; closed := closed ch |}, false)).
Proof.
  intros Hbuf. unfold writePump_message. rewrite Hbuf. split; [|split].
  - intros -> ->. cbn [negb]. eexists. split; [reflexivity|]. apply lines_frame.
  - by intros ->.
  - by intros -> ->.
Qed.

(** Witness of [writePump_frame_lines]: a queue of two one-byte payloads,
    on a connection that accepts the writes and on one that is gone. *)
Lemma writePump_frame_lines_witness :
  (∃ data, writePump_message healthy
             {| buf := [[Byte.x61]; [Byte.x62]]; closed := false |}
           = Some (Some (TextMessage data), {| buf := []; closed := false |}, true)
     ∧ lines data = [[Byte.x61]; [Byte.x62]])
  ∧ writePump_message broken {| buf := [[Byte.x61]; [Byte.x62]]; closed := false |}
    = Some (None, {| buf := [[Byte.x62]]; closed := false |}, false).
Proof.
  split.
  - destruct (writePump_frame_lines healthy
                {| buf := [[Byte.x61]; [Byte.x62]]; closed := false |}
                [Byte.x61] [[Byte.x62]] eq_refl) as [Hsent _].
    destruct (Hsent eq_refl eq_refl) as (data & Hturn & Hlines).
    exists data. split; [exact Hturn|]. apply Hlines.
    repeat constructor; intros Hin;
      repeat (apply elem_of_cons in Hin as [Hin|Hin]; [discriminate Hin|]);
      by apply elem_of_nil in Hin.
  - destruct (writePump_frame_lines broken
                {| buf := [[Byte.x61]; [Byte.x62]]; closed := false |}
                [Byte.x61] [[Byte.x62]] eq_refl) as (_ & Hlost & _).
    by apply Hlost.
Defined.

(** X23: a session evicted by a broadcast is still served what it had
    queued if its connection accepts the writes, and loses it otherwise.
    When the queue of an active session is full, the broadcast closes it
    without adding the new payload.  On a turn of its writer that finds a
    connection giving a writer whose [Close] succeeds, the queued payloads
    go out in one text message, and the turn after that writes the close
    frame, which arrives if the connection accepts it, and ends the loop.
    On a turn that finds the connection failing, nothing reaches the peer
    and the loop ends with the payloads lost. *)
Theorem evicted_session_drains m h c ch cn cn' :
  hub_inv h → c ∈ clients h → send h !! c = Some ch →
  (sendCap ≤ length (buf ch))%nat →
  ∃ h',
    Run_broadcast m h = Some h'
    ∧ (c ∉ clients h')
    ∧ send h' !! c = Some (closedQueue ch)
    ∧ (NextWriter_ok cn = true → Close_ok cn = true →
       ∃ data,
         writePump_message cn (closedQueue ch)
         = Some (Some (TextMessage data), {| buf := []; closed := true |}, true)
         ∧ (Forall (λ p, newline ∉ p) (buf ch) → lines data = buf ch)
         ∧ writePump_message cn' {| buf := []; closed := true |}
           = Some (if WriteMessage_ok cn' then Some CloseMessage else None,
                   {| buf := []; closed := true |}, false))
    ∧ (NextWriter_ok cn = false ∨ Close_ok cn = false →
       ∃ ch', writePump_message cn (closedQueue ch) = Some (None, ch', false)).
Proof.
  intros Hinv Hc Hch Hfull.
  destruct (Run_broadcast_open m h (hub_inv_active_open h Hinv))
    as (h' & Hrun & _ & Hevict & _).
  destruct (Hevict c ch Hc Hch Hfull) as [Hgone Hclosed].
  destruct (buf ch) as [|message pending] eqn:Hbuf;
    [unfold sendCap in Hfull; cbn [length] in Hfull; lia|].
  exists h'. split; [exact Hrun|]. split; [exact Hgone|].
  split; [exact Hclosed|]. unfold writePump_message.
  cbn [closedQueue buf closed]. rewrite Hbuf. split.
  - intros -> ->. cbn [negb]. eexists. split; [reflexivity|].
    split; [apply lines_frame|reflexivity].
  - intros [Hw|Hcl].
    + rewrite Hw. cbn [negb]. by eexists.
    + rewrite Hcl. destruct (NextWriter_ok cn); cbn [negb]; by eexists.
Qed.

(** Witness of [evicted_session_drains]: the full session of the three, on
    a connection that accepts the writes. *)
Lemma evicted_session_drains_witness :
  ∃ h' data,
    Run_broadcast [Byte.x61] threeSessions = Some h'
    ∧ (2%nat ∉ clients h')
    ∧ writePump_message healthy
        (closedQueue {| buf := replicate sendCap []; closed := false |})
      = Some (Some (TextMessage data), {| buf := []; closed := true |}, true)
    ∧ lines data = replicate sendCap [].
Proof.
  destruct (evicted_session_drains [Byte.x61] threeSessions 2%nat
              {| buf := replicate sendCap []; closed := false |} healthy healthy
              threeSessions_inv)
    as (h' & Hrun & Hgone & _ & Hserved & _).
  - apply (bool_decide_unpack _). vm_compute. exact I.
  - reflexivity.
  - vm_compute. lia.
  - destruct (Hserved eq_refl eq_refl) as (data & Hturn & Hlines & _).
    exists h', data. split; [exact Hrun|]. split; [exact Hgone|].
    split; [exact Hturn|]. apply Hlines. cbn [buf].
    apply Forall_replicate. intros Hin. by apply elem_of_nil in Hin.
Defined.

End WebsocketMore.

(* ===================================================================== *)
(** * From ingestion to the subscribers, and the REST handler *)
(* ===================================================================== *)

Module ServerProofs.
Import Websocket Server ManagerProofs WebsocketProofs.
Local Open Scope list_scope.

(** X24: a newly accepted event reaches the subscribers with its labels.
    When [AddEarthquake] accepts an event while the notification channel is
    empty, the next turn of the notification loop takes it from the channel
    and broadcasts the marshalled envelope of the classified record: every
    active session with room has that payload appended to its queue, and
    the channel is empty again. *)
Theorem accepted_event_is_broadcast json_Marshal rd E em h payload :
  earthquakes em !! ID E = None →
  notCategorized (CategorizeEarthquake rd E) = false →
  newEarthquakeChan em = [] →
  active_open h →
  json_Marshal {| MsgType := "new_earthquake"; Data := CategorizeEarthquake rd E |}
  = Some payload →
  ∃ em' h',
    startWebSocketNotifications_step json_Marshal (AddEarthquake rd E em).1 h
    = Some (em', h')
    ∧ newEarthquakeChan em' = []
    ∧ earthquakes em' !! ID E = Some (CategorizeEarthquake rd E)
    ∧ ∀ c ch, c ∈ clients h → send h !! c = Some ch →
        (length (buf ch) < sendCap)%nat →
        c ∈ clients h'
        ∧ send h' !! c = Some {| buf := buf ch ++ [payload]; closed := false |}.
Proof.
  intros Hnew Hcat Hempty Hopen Hjson.
  unfold startWebSocketNotifications_step, AddEarthquake.
  rewrite Hnew, Hcat. cbn [fst newEarthquakeChan]. rewrite Hempty.
  unfold try_send. cbn [length Nat.ltb Nat.leb newEarthquakeChanCap app].
  unfold broadcast, BroadcastEarthquake. rewrite Hjson.
  destruct (Run_broadcast_open payload h Hopen) as (h' & Hrun & Hroom & _).
  rewrite Hrun. cbn [mbind option_bind]. eexists. exists h'.
  split; [reflexivity|]. cbn [receive newEarthquakeChan earthquakes tail].
  split; [reflexivity|]. split.
  - rewrite CategorizeEarthquake_ID. apply lookup_insert_eq.
  - intros c ch Hc Hch Hlen. exact (Hroom c ch Hc Hch Hlen).
Qed.

(** Witness of [accepted_event_is_broadcast]: the event ["a"] at (5,5)
    offered to a new manager, three sessions listening. *)
Lemma accepted_event_is_broadcast_witness :
  ∃ em' h',
    startWebSocketNotifications_step marshalID
      (AddEarthquake (Some overlapping) (event "a" 5 5 0)
         (NewEarthquakeManager (7 * day))).1 threeSessions
    = Some (em', h')
    ∧ newEarthquakeChan em' = [].
Proof.
  destruct (accepted_event_is_broadcast marshalID (Some overlapping) (event "a" 5 5 0)
              (NewEarthquakeManager (7 * day)) threeSessions [Byte.x61])
    as (em' & h' & Hstep & Hchan & _).
  - reflexivity.
  - vm_compute. reflexivity.
  - reflexivity.
  - exact threeSessions_open.
  - vm_compute. reflexivity.
  - by exists em', h'.
Defined.

(** X25: in every reachable state a request other than GET is refused.
    For a GET the list selected is ordered most recent first and is part of
    what the unfiltered request selects; an [oceano] parameter wins over a
    [region] parameter, which is then ignored.  The answer is the encoding
    of that list when the encoder succeeds, and Internal server error when
    it fails. *)
Theorem handleGetEarthquakes_answers json_Encode rd em method oceano region :
  Manager.reachable rd em →
  timeDescending (handleGetEarthquakes_earthquakes oceano region em)
  ∧ (∀ eq, eq ∈ handleGetEarthquakes_earthquakes oceano region em → eq ∈ GetAll em)
  ∧ (oceano ≠ "" →
     handleGetEarthquakes_earthquakes oceano region em = GetByOceano oceano em)
  ∧ match handleGetEarthquakes json_Encode method oceano region em with
    | MethodNotAllowed => method ≠ "GET"
    | OK body =>
        method = "GET"
        ∧ json_Encode (handleGetEarthquakes_earthquakes oceano region em) = Some body
    | InternalServerError =>
        method = "GET"
        ∧ json_Encode (handleGetEarthquakes_earthquakes oceano region em) = None
    end.
Proof.
  intros Hinv%reachable_store_inv.
  assert (Hsub : ∀ f eq,
            eq ∈ sort_Slice byTimeDesc (List.filter f (range_values em)) →
            eq ∈ GetAll em).
  { intros f eq Hin. apply ManagerMore.elem_of_query in Hin as [[id Hid] _].
    unfold GetAll. apply ManagerMore.elem_of_query. split; [by exists id|].
    apply isCategorized_labeled. by apply (Hinv id eq). }
  split; [|split; [|split; [|]]].
  - unfold handleGetEarthquakes_earthquakes.
    destruct (negb (oceano =? "")%string), (negb (region =? "")%string);
      apply sort_byTimeDesc_sorted.
  - unfold handleGetEarthquakes_earthquakes.
    destruct (negb (oceano =? "")%string), (negb (region =? "")%string);
      first [apply Hsub | done].
  - intros Ho. unfold handleGetEarthquakes_earthquakes.
    by destruct (String.eqb_spec oceano "").
  - unfold handleGetEarthquakes.
    destruct (String.eqb_spec method "GET") as [->|Hm]; cbn [negb]; [|exact Hm].
    by destruct (json_Encode (handleGetEarthquakes_earthquakes oceano region em)).
Qed.

(** Witness of [handleGetEarthquakes_answers]: a GET with both parameters
    answers by basin, and a GET on a state that holds an event with a NaN
    magnitude, which the encoder refuses, answers Internal server error. *)
Lemma handleGetEarthquakes_answers_witness :
  match handleGetEarthquakes encodeIDs "GET" "Pacifico" "regional" holding_a with
  | OK body => encodeIDs (GetByOceano "Pacifico" holding_a) = Some body
  | _ => False
  end
  ∧ match handleGetEarthquakes encodeIDs "GET" "" "" holding_nan with
    | InternalServerError => encodeIDs (GetAll holding_nan) = None
    | _ => False
    end.
Proof.
  split.
  - destruct (handleGetEarthquakes_answers encodeIDs (Some overlapping) holding_a
                "GET" "Pacifico" "regional"
                (Manager.reach_add _ _ _ (Manager.reach_new _ _)))
      as (_ & _ & Hbasin & Hanswer).
    rewrite Hbasin in Hanswer by done.
    destruct (handleGetEarthquakes encodeIDs "GET" "Pacifico" "regional" holding_a)
      eqn:Hcall; [vm_compute in Hcall; discriminate Hcall|apply Hanswer|
                  vm_compute in Hcall; discriminate Hcall].
  - destruct (handleGetEarthquakes_answers encodeIDs (Some overlapping) holding_nan
                "GET" "" ""
                (Manager.reach_add _ _ _ (Manager.reach_new _ _)))
      as (_ & _ & _ & Hanswer).
    destruct (handleGetEarthquakes encodeIDs "GET" "" "" holding_nan)
      eqn:Hcall; [vm_compute in Hcall; discriminate Hcall|
                  vm_compute in Hcall; discriminate Hcall|apply Hanswer].
Defined.

End ServerProofs.
